(** * The OpenAPI normalizer of API-Visualizer, [src/utils/openApiParser.ts]

    A shallow embedding of the normalization layer: the document tree the
    parsers hand over, the JavaScript operations the normalizer applies to it
    (truthiness, [||], property reads, [Object.entries], spread, [.map]),
    the records of [src/types/api.ts], and the functions of
    [openApiParser.ts] in the order of the source. *)

From Stdlib Require Import List String Ascii Bool Arith ZArith QArith Lia.
From Stdlib Require Import DecimalString Finite Permutation.
Import ListNotations.

Set Warnings "-register-all".

Local Open Scope string_scope.
Local Open Scope list_scope.
Local Open Scope nat_scope.

(** ** JavaScript values *)

Module JS.

(** A JavaScript number. The normalizer never computes with numbers: it
    copies them and tests them for truthiness. [-0] is [Finite 0]. *)
Inductive JSNumber : Type :=
| NaN
| Infinity (negative : bool)
| Finite (q : Q).

(** The document tree: what [JSON.parse] and [yaml.load] return and what a
    caller may pass as an object. An object is the list of its own enumerable
    properties in the order [Object.entries] enumerates them; its keys are
    pairwise distinct. The tree has no sharing: every array and object in it
    is an object of its own. *)
Inductive JValue : Type :=
| JUndefined
| JNull
| JBool (b : bool)
| JNum (n : JSNumber)
| JStr (s : string)
| JArr (xs : list JValue)
| JObj (fs : list (string * JValue)).

(** ToBoolean. *)
Definition truthy (v : JValue) : bool :=
  match v with
  | JUndefined | JNull => false
  | JBool b => b
  | JNum NaN => false
  | JNum (Infinity _) => true
  | JNum (Finite q) => negb (Z.eqb (Qnum q) 0)
  | JStr EmptyString => false
  | JStr _ => true
  | JArr _ | JObj _ => true
  end.

Definition is_nullish (v : JValue) : bool :=
  match v with
  | JUndefined | JNull => true
  | _ => false
  end.

(** [a || b] *)
Definition or_else (a b : JValue) : JValue := if truthy a then a else b.

(** [a === b] where [b] is a string literal. *)
Definition is_string (v : JValue) (s : string) : bool :=
  match v with
  | JStr s' => String.eqb s' s
  | _ => false
  end.

Fixpoint lookup {A : Type} (k : string) (fs : list (string * A)) : option A :=
  match fs with
  | [] => None
  | (k', v) :: fs' => if String.eqb k k' then Some v else lookup k fs'
  end.

(** The value of [o.k] (or [o[k]]) when the read does not throw, for a key
    [k] that no built-in prototype defines and that is not an index. On
    [null] and [undefined] it is [undefined], which is what [o?.k] gives. *)
Definition prop (o : JValue) (k : string) : JValue :=
  match o with
  | JObj fs => match lookup k fs with Some v => v | None => JUndefined end
  | _ => JUndefined
  end.

(** The decimal spelling of an array index. *)
Definition index_key (i : nat) : string := NilEmpty.string_of_uint (Nat.to_uint i).

Fixpoint indexed {A : Type} (i : nat) (xs : list A) : list (string * A) :=
  match xs with
  | [] => []
  | x :: xs' => (index_key i, x) :: indexed (S i) xs'
  end.

(** The one-character strings a string is iterated as. *)
Fixpoint chars (s : string) : list JValue :=
  match s with
  | EmptyString => []
  | String c s' => JStr (String c EmptyString) :: chars s'
  end.

(** [Object.entries(v)] for [v] that is neither [null] nor [undefined]
    (every call site of the normalizer passes a truthy value). *)
Definition Object_entries (v : JValue) : list (string * JValue) :=
  match v with
  | JObj fs => fs
  | JArr xs => indexed 0 xs
  | JStr s => indexed 0 (chars s)
  | _ => []
  end.

(** [o[k] = v] on an object created by an object literal: the key
    [__proto__] reaches the prototype setter and adds no own property. *)
Fixpoint define {A : Type} (o : list (string * A)) (k : string) (v : A) : list (string * A) :=
  match o with
  | [] => [(k, v)]
  | (k', v') :: o' => if String.eqb k k' then (k', v) :: o' else (k', v') :: define o' k v
  end.

Definition assign {A : Type} (o : list (string * A)) (k : string) (v : A) : list (string * A) :=
  if String.eqb k "__proto__" then o else define o k v.

(** [Object.fromEntries(es)]: every entry defines an own property. *)
Definition Object_fromEntries {A : Type} (es : list (string * A)) : list (string * A) :=
  fold_left (fun o kv => define o (fst kv) (snd kv)) es [].

(** SameValueZero, the equality of [Set]. Arrays and objects compare by
    identity, and no two positions of the tree hold the same object. *)
Definition same_value_zero (a b : JValue) : bool :=
  match a, b with
  | JUndefined, JUndefined => true
  | JNull, JNull => true
  | JBool x, JBool y => Bool.eqb x y
  | JNum NaN, JNum NaN => true
  | JNum (Infinity x), JNum (Infinity y) => Bool.eqb x y
  | JNum (Finite p), JNum (Finite q) => Qeq_bool p q
  | JStr s, JStr t => String.eqb s t
  | _, _ => false
  end.

(** [set.add(x)] on a [Set] kept as the list of its members in insertion order. *)
Definition Set_add (set : list JValue) (x : JValue) : list JValue :=
  if existsb (same_value_zero x) set then set else set ++ [x].

(** Nesting depth of a value: scalars are at depth 0. *)
Fixpoint depth (v : JValue) : nat :=
  match v with
  | JArr xs => S (list_max (map depth xs))
  | JObj fs => S (list_max (map (fun kv => match kv with (_, x) => depth x end) fs))
  | _ => 0
  end.

(** [JSON.parse(JSON.stringify(v))] as a function on values, after
    ECMAScript's SerializeJSONProperty: a property whose value is [undefined]
    is left out, an array member that is [undefined] becomes [null], a
    number that is not finite becomes [null]. *)
Fixpoint JSON_clone (v : JValue) : JValue :=
  match v with
  | JNum NaN | JNum (Infinity _) => JNull
  | JArr xs =>
      JArr (map (fun x => match x with JUndefined => JNull | _ => JSON_clone x end) xs)
  | JObj fs =>
      JObj ((fix members (fs : list (string * JValue)) : list (string * JValue) :=
               match fs with
               | [] => []
               | (k, JUndefined) :: fs' => members fs'
               | (k, x) :: fs' => (k, JSON_clone x) :: members fs'
               end) fs)
  | _ => v
  end.

End JS.
Export JS.

(** ** Outcomes: a value, a thrown exception, or recursion cut off *)

(** [Error msg] is [throw new Error(msg)]; [TypeError] is what the runtime
    raises on a property read of [null] or [undefined], on the spread of a
    value that is not iterable and on the call of something that is not a
    function. *)
Inductive Exn : Type :=
| Error (message : string)
| TypeError.

Inductive Outcome (A : Type) : Type :=
| Ret (a : A)
| Throw (e : Exn)
| OutOfFuel.

Arguments Ret {A} a.
Arguments Throw {A} e.
Arguments OutOfFuel {A}.

Definition bind {A B : Type} (c : Outcome A) (k : A -> Outcome B) : Outcome B :=
  match c with
  | Ret a => k a
  | Throw e => Throw e
  | OutOfFuel => OutOfFuel
  end.

Notation "x <- c ;; k" := (bind c (fun x => k))
  (at level 61, c at next level, right associativity).

(** [xs.map(f)] with a callback that may throw: the first exception ends the loop. *)
Fixpoint mapM {A B : Type} (f : A -> Outcome B) (xs : list A) : Outcome (list B) :=
  match xs with
  | [] => Ret []
  | x :: xs' => y <- f x ;; ys <- mapM f xs' ;; Ret (y :: ys)
  end.

(** A loop that pushes the results of each round onto one array. *)
Fixpoint flatMapM {A B : Type} (f : A -> Outcome (list B)) (xs : list A) : Outcome (list B) :=
  match xs with
  | [] => Ret []
  | x :: xs' => ys <- f x ;; zs <- flatMapM f xs' ;; Ret (ys ++ zs)
  end.

(** [o.k] as the first read of a property of [o]. *)
Definition get (o : JValue) (k : string) : Outcome JValue :=
  if is_nullish o then Throw TypeError else Ret (prop o k).

(** The receiver of [.map(...)] or [.forEach(...)]: only an array has them. *)
Definition array_elements (v : JValue) : Outcome (list JValue) :=
  match v with
  | JArr xs => Ret xs
  | _ => Throw TypeError
  end.

(** [...v] inside an array literal. *)
Definition spread (v : JValue) : Outcome (list JValue) :=
  match v with
  | JArr xs => Ret xs
  | JStr s => Ret (chars s)
  | _ => Throw TypeError
  end.

(** [Object.keys(v)[0]] *)
Definition first_key (v : JValue) : Outcome JValue :=
  if is_nullish v then Throw TypeError
  else Ret (match Object_entries v with
            | [] => JUndefined
            | (k, _) :: _ => JStr k
            end).

(** [v?.map(f)] *)
Definition optional_map {B : Type} (f : JValue -> Outcome B) (v : JValue)
  : Outcome (option (list B)) :=
  if is_nullish v then Ret None
  else xs <- array_elements v ;; ys <- mapM f xs ;; Ret (Some ys).

(** ** The unified model, [src/types/api.ts]

    A field the normalizer copies from the document holds whatever value the
    document has there; an absent field reads [JUndefined]. *)

Inductive HttpMethod : Type := GET | POST | PUT | PATCH | DELETE | OPTIONS | HEAD.

Definition method_name (m : HttpMethod) : string :=
  match m with
  | GET => "get"
  | POST => "post"
  | PUT => "put"
  | PATCH => "patch"
  | DELETE => "delete"
  | OPTIONS => "options"
  | HEAD => "head"
  end.

Module SchemaRef.
Inductive t : Type := mk {
  type : JValue;
  ref : JValue;
  format : JValue;
  description : JValue;
  enum : JValue;
  items : option t;
  properties : option (list (string * t));
  required : JValue;
  example : JValue;
  nullable : JValue;
  oneOf : option (list t);
  anyOf : option (list t);
  allOf : option (list t) }.
End SchemaRef.

(** [Parameter] of [api.ts]; the word is reserved here. *)
Module Param.
Record t : Type := mk {
  name : JValue;
  in_ : JValue;
  description : JValue;
  required : JValue;
  schema : SchemaRef.t;
  example : JValue }.
End Param.

Module MediaType.
Record t : Type := mk {
  schema : SchemaRef.t;
  example : JValue }.
End MediaType.

Module RequestBody.
Record t : Type := mk {
  description : JValue;
  required : JValue;
  content : list (string * MediaType.t) }.
End RequestBody.

Module Response.
Record t : Type := mk {
  statusCode : string;
  description : JValue;
  content : option (list (string * MediaType.t)) }.
End Response.

Module Endpoint.
Record t : Type := mk {
  id : string;
  path : string;
  method : HttpMethod;
  summary : JValue;
  description : JValue;
  tags : JValue;
  parameters : list Param.t;
  requestBody : option RequestBody.t;
  responses : list Response.t;
  security : option (list JValue);
  deprecated : JValue }.
End Endpoint.

Module Schema.
Record t : Type := mk {
  name : string;
  type : JValue;
  description : JValue;
  properties : option (list (string * SchemaRef.t));
  items : option SchemaRef.t;
  required : JValue;
  enum : JValue;
  format : JValue;
  example : JValue }.
End Schema.

Module SecurityScheme.
Record t : Type := mk {
  name : string;
  type : JValue;
  in_ : JValue;
  scheme : JValue;
  bearerFormat : JValue;
  description : JValue }.
End SecurityScheme.

Module ApiSpec.
Record t : Type := mk {
  title : JValue;
  version : JValue;
  description : JValue;
  servers : JValue;
  endpoints : list Endpoint.t;
  schemas : list Schema.t;
  tags : JValue;
  securitySchemes : list SecurityScheme.t }.
End ApiSpec.

(** ** [openApiParser.ts] *)

(** [{ type: 'object' }] *)
Definition object_schema : SchemaRef.t :=
  SchemaRef.mk (JStr "object") JUndefined JUndefined JUndefined JUndefined None None
               JUndefined JUndefined JUndefined None None None.

(** [items ? parseSchemaRef(items) : undefined] *)
Definition convertItems (conv : JValue -> Outcome SchemaRef.t) (items : JValue)
  : Outcome (option SchemaRef.t) :=
  if truthy items then r <- conv items ;; Ret (Some r) else Ret None.

(** [properties ? Object.fromEntries(Object.entries(properties).map(([k, v]) =>
    [k, parseSchemaRef(v)])) : undefined] *)
Definition convertProperties (conv : JValue -> Outcome SchemaRef.t) (properties : JValue)
  : Outcome (option (list (string * SchemaRef.t))) :=
  if truthy properties
  then es <- mapM (fun kv => r <- conv (snd kv) ;; Ret (fst kv, r))
                  (Object_entries properties) ;;
       Ret (Some (Object_fromEntries es))
  else Ret None.

(** [parseSchemaRef], lines 217-239. [fuel] bounds the depth of the
    recursion: every recursive call spends one unit. *)
Fixpoint parseSchemaRef_rec (fuel : nat) (schema : JValue) : Outcome SchemaRef.t :=
  match fuel with
  | O => OutOfFuel
  | S fuel' =>
      if negb (truthy schema) then Ret object_schema
      else
        items <- convertItems (parseSchemaRef_rec fuel') (prop schema "items") ;;
        properties <- convertProperties (parseSchemaRef_rec fuel') (prop schema "properties") ;;
        oneOf <- optional_map (parseSchemaRef_rec fuel') (prop schema "oneOf") ;;
        anyOf <- optional_map (parseSchemaRef_rec fuel') (prop schema "anyOf") ;;
        allOf <- optional_map (parseSchemaRef_rec fuel') (prop schema "allOf") ;;
        Ret {| SchemaRef.type := prop schema "type";
               SchemaRef.ref := prop schema "$ref";
               SchemaRef.format := prop schema "format";
               SchemaRef.description := prop schema "description";
               SchemaRef.enum := prop schema "enum";
               SchemaRef.items := items;
               SchemaRef.properties := properties;
               SchemaRef.required := prop schema "required";
               SchemaRef.example := prop schema "example";
               SchemaRef.nullable := prop schema "nullable";
               SchemaRef.oneOf := oneOf;
               SchemaRef.anyOf := anyOf;
               SchemaRef.allOf := allOf |}
  end.

(** The conversion as the callers use it: the nesting depth of the node,
    plus one for the call itself, is fuel enough. *)
Definition parseSchemaRef (schema : JValue) : Outcome SchemaRef.t :=
  parseSchemaRef_rec (S (depth schema)) schema.

(** [parseParameter], lines 168-177. *)
Definition parseParameter (param : JValue) : Outcome Param.t :=
  name <- get param "name" ;;
  schema <- parseSchemaRef (prop param "schema") ;;
  Ret {| Param.name := name;
         Param.in_ := prop param "in";
         Param.description := prop param "description";
         Param.required :=
           or_else (prop param "required") (JBool (is_string (prop param "in") "path"));
         Param.schema := schema;
         Param.example := prop param "example" |}.

(** The loop over [Object.entries(x.content || {})] that fills [content],
    lines 182-188 and 201-207. *)
Fixpoint fillContent (entries : list (string * JValue)) (content : list (string * MediaType.t))
  : Outcome (list (string * MediaType.t)) :=
  match entries with
  | [] => Ret content
  | (mediaType, mediaContent) :: rest =>
      schema <- get mediaContent "schema" ;;
      converted <- parseSchemaRef schema ;;
      fillContent rest
        (assign content mediaType
           {| MediaType.schema := converted;
              MediaType.example := prop mediaContent "example" |})
  end.

Definition parseContent (content : JValue) : Outcome (list (string * MediaType.t)) :=
  fillContent (Object_entries (or_else content (JObj []))) [].

(** [parseRequestBody], lines 179-195. *)
Definition parseRequestBody (body : JValue) : Outcome (option RequestBody.t) :=
  if negb (truthy body) then Ret None
  else
    content <- parseContent (prop body "content") ;;
    Ret (Some {| RequestBody.description := prop body "description";
                 RequestBody.required := or_else (prop body "required") (JBool false);
                 RequestBody.content := content |}).

(** [parseResponses], lines 197-215. *)
Definition parseResponse (entry : string * JValue) : Outcome Response.t :=
  let (statusCode, response) := entry in
  declared <- get response "content" ;;
  content <- parseContent declared ;;
  Ret {| Response.statusCode := statusCode;
         Response.description := prop response "description";
         Response.content := match content with
                             | [] => None
                             | _ :: _ => Some content
                             end |}.

Definition parseResponses (responses : JValue) : Outcome (list Response.t) :=
  if negb (truthy responses) then Ret []
  else mapM parseResponse (Object_entries responses).

(** [parseSchema], lines 241-257. *)
Definition parseSchema (name : string) (schema : JValue) : Outcome Schema.t :=
  type <- get schema "type" ;;
  properties <- convertProperties parseSchemaRef (prop schema "properties") ;;
  items <- convertItems parseSchemaRef (prop schema "items") ;;
  Ret {| Schema.name := name;
         Schema.type := or_else type (JStr "object");
         Schema.description := prop schema "description";
         Schema.properties := properties;
         Schema.items := items;
         Schema.required := prop schema "required";
         Schema.enum := prop schema "enum";
         Schema.format := prop schema "format";
         Schema.example := prop schema "example" |}.

(** [extractTags], lines 259-263. *)
Fixpoint collectTags (endpoints : list Endpoint.t) (tagSet : list JValue)
  : Outcome (list JValue) :=
  match endpoints with
  | [] => Ret tagSet
  | e :: rest =>
      ts <- array_elements (Endpoint.tags e) ;;
      collectTags rest (fold_left Set_add ts tagSet)
  end.

Definition extractTags (endpoints : list Endpoint.t) : Outcome JValue :=
  tagSet <- collectTags endpoints [] ;;
  Ret (JArr (map (fun name => JObj [("name", name)]) tagSet)).

(** The body of the loop over [methods], lines 116-133, for an operation
    that is present. *)
Definition methods : list HttpMethod := [GET; POST; PUT; PATCH; DELETE; OPTIONS; HEAD].

Definition parseOperation (path : string) (pathParams : JValue) (method : HttpMethod)
    (operation : JValue) : Outcome Endpoint.t :=
  shared <- spread pathParams ;;
  own <- spread (or_else (prop operation "parameters") (JArr [])) ;;
  let allParams := shared ++ own in
  parameters <- mapM parseParameter allParams ;;
  requestBody <- parseRequestBody (prop operation "requestBody") ;;
  responses <- parseResponses (prop operation "responses") ;;
  security <- optional_map first_key (prop operation "security") ;;
  Ret {| Endpoint.id := method_name method ++ "-" ++ path;
         Endpoint.path := path;
         Endpoint.method := method;
         Endpoint.summary := prop operation "summary";
         Endpoint.description := prop operation "description";
         Endpoint.tags := or_else (prop operation "tags") (JArr [JStr "default"]);
         Endpoint.parameters := parameters;
         Endpoint.requestBody := requestBody;
         Endpoint.responses := responses;
         Endpoint.security := security;
         Endpoint.deprecated := prop operation "deprecated" |}.

(** One round of the loop over [Object.entries(spec.paths || {})], lines 112-135. *)
Definition pathEndpoints (entry : string * JValue) : Outcome (list Endpoint.t) :=
  let (path, pathItem) := entry in
  parameters <- get pathItem "parameters" ;;
  let pathParams := or_else parameters (JArr []) in
  flatMapM (fun method =>
              let operation := prop pathItem (method_name method) in
              if negb (truthy operation) then Ret []
              else e <- parseOperation path pathParams method operation ;; Ret [e])
           methods.

(** Lines 145-154. *)
Definition parseSecurityScheme (entry : string * JValue) : Outcome SecurityScheme.t :=
  let (name, scheme) := entry in
  type <- get scheme "type" ;;
  Ret {| SecurityScheme.name := name;
         SecurityScheme.type := type;
         SecurityScheme.in_ := prop scheme "in";
         SecurityScheme.scheme := prop scheme "scheme";
         SecurityScheme.bearerFormat := prop scheme "bearerFormat";
         SecurityScheme.description := prop scheme "description" |}.

Definition missing_version : string :=
  "Invalid OpenAPI specification: missing openapi or swagger version".

Definition invalid_text : string := "Failed to parse spec: Invalid JSON or YAML".

(** [parseOpenApiSpec] from the dialect gate on, lines 103-165. *)
Definition normalize (spec : JValue) : Outcome ApiSpec.t :=
  openapi <- get spec "openapi" ;;
  if negb (truthy openapi) && negb (truthy (prop spec "swagger"))
  then Throw (Error missing_version)
  else
    endpoints <- flatMapM pathEndpoints (Object_entries (or_else (prop spec "paths") (JObj []))) ;;
    schemas <- mapM (fun entry => parseSchema (fst entry) (snd entry))
                 (Object_entries (or_else (prop (prop spec "components") "schemas") (JObj []))) ;;
    securitySchemes <- mapM parseSecurityScheme
                 (Object_entries
                    (or_else (prop (prop spec "components") "securitySchemes") (JObj []))) ;;
    title <- get (prop spec "info") "title" ;;
    tags <- (if truthy (prop spec "tags") then Ret (prop spec "tags")
             else extractTags endpoints) ;;
    Ret {| ApiSpec.title := title;
           ApiSpec.version := prop (prop spec "info") "version";
           ApiSpec.description := prop (prop spec "info") "description";
           ApiSpec.servers := prop spec "servers";
           ApiSpec.endpoints := endpoints;
           ApiSpec.schemas := schemas;
           ApiSpec.tags := tags;
           ApiSpec.securitySchemes := securitySchemes |}.

Section Loader.

(** [JSON.parse] and [yaml.load] of js-yaml: [None] when the call throws. *)
Variable JSON_parse : string -> option JValue.
Variable yaml_load : string -> option JValue.

(** Lines 86-101: a string is parsed, anything else is taken as the document. *)
Definition loadDocument (input : JValue) : Outcome JValue :=
  match input with
  | JStr text =>
      match JSON_parse text with
      | Some spec => Ret spec
      | None =>
          match yaml_load text with
          | Some spec => Ret spec
          | None => Throw (Error invalid_text)
          end
      end
  | _ => Ret input
  end.

(** [parseOpenApiSpec], lines 85-166. *)
Definition parseOpenApiSpec (input : JValue) : Outcome ApiSpec.t :=
  spec <- loadDocument input ;;
  normalize spec.

End Loader.

(** ** The application state, [stores/apiStore.ts] *)

Inductive Tab : Type := Docs | TryIt | SchemaTab | Graph.

(** [ApiResponse] of [api.ts]: [status] and [size] are integers,
    [duration] a difference of [performance.now()] readings. *)
Module ApiResponse.
Record t : Type := mk {
  status : Z;
  statusText : string;
  headers : list (string * string);
  body : string;
  duration : JSNumber;
  size : Z }.
End ApiResponse.

Module ApiState.
Record t : Type := mk {
  spec : option ApiSpec.t;
  isLoading : bool;
  error : option string;
  selectedEndpoint : option Endpoint.t;
  selectedSchema : option string;
  searchQuery : string;
  expandedTags : list string;
  activeTab : Tab;
  lastResponse : option ApiResponse.t;
  isRequestLoading : bool;
  isDarkMode : bool }.
End ApiState.

(** The initial state, lines 313-324 of the store. *)
Definition initialState : ApiState.t :=
  {| ApiState.spec := None;
     ApiState.isLoading := false;
     ApiState.error := None;
     ApiState.selectedEndpoint := None;
     ApiState.selectedSchema := None;
     ApiState.searchQuery := EmptyString;
     ApiState.expandedTags := [];
     ApiState.activeTab := Docs;
     ApiState.lastResponse := None;
     ApiState.isRequestLoading := false;
     ApiState.isDarkMode := true |}.

(** The actions: [set(partial)] replaces the fields of [partial] and keeps the others. *)
Definition setSpec (spec : option ApiSpec.t) (s : ApiState.t) : ApiState.t :=
  {| ApiState.spec := spec;
     ApiState.isLoading := ApiState.isLoading s;
     ApiState.error := None;
     ApiState.selectedEndpoint := ApiState.selectedEndpoint s;
     ApiState.selectedSchema := ApiState.selectedSchema s;
     ApiState.searchQuery := ApiState.searchQuery s;
     ApiState.expandedTags := ApiState.expandedTags s;
     ApiState.activeTab := ApiState.activeTab s;
     ApiState.lastResponse := ApiState.lastResponse s;
     ApiState.isRequestLoading := ApiState.isRequestLoading s;
     ApiState.isDarkMode := ApiState.isDarkMode s |}.

Definition setLoading (isLoading : bool) (s : ApiState.t) : ApiState.t :=
  {| ApiState.spec := ApiState.spec s;
     ApiState.isLoading := isLoading;
     ApiState.error := ApiState.error s;
     ApiState.selectedEndpoint := ApiState.selectedEndpoint s;
     ApiState.selectedSchema := ApiState.selectedSchema s;
     ApiState.searchQuery := ApiState.searchQuery s;
     ApiState.expandedTags := ApiState.expandedTags s;
     ApiState.activeTab := ApiState.activeTab s;
     ApiState.lastResponse := ApiState.lastResponse s;
     ApiState.isRequestLoading := ApiState.isRequestLoading s;
     ApiState.isDarkMode := ApiState.isDarkMode s |}.

Definition setError (error : option string) (s : ApiState.t) : ApiState.t :=
  {| ApiState.spec := ApiState.spec s;
     ApiState.isLoading := false;
     ApiState.error := error;
     ApiState.selectedEndpoint := ApiState.selectedEndpoint s;
     ApiState.selectedSchema := ApiState.selectedSchema s;
     ApiState.searchQuery := ApiState.searchQuery s;
     ApiState.expandedTags := ApiState.expandedTags s;
     ApiState.activeTab := ApiState.activeTab s;
     ApiState.lastResponse := ApiState.lastResponse s;
     ApiState.isRequestLoading := ApiState.isRequestLoading s;
     ApiState.isDarkMode := ApiState.isDarkMode s |}.

Definition selectEndpoint (endpoint : option Endpoint.t) (s : ApiState.t) : ApiState.t :=
  {| ApiState.spec := ApiState.spec s;
     ApiState.isLoading := ApiState.isLoading s;
     ApiState.error := ApiState.error s;
     ApiState.selectedEndpoint := endpoint;
     ApiState.selectedSchema := ApiState.selectedSchema s;
     ApiState.searchQuery := ApiState.searchQuery s;
     ApiState.expandedTags := ApiState.expandedTags s;
     ApiState.activeTab := Docs;
     ApiState.lastResponse := ApiState.lastResponse s;
     ApiState.isRequestLoading := ApiState.isRequestLoading s;
     ApiState.isDarkMode := ApiState.isDarkMode s |}.

(** [expandedTags.includes(tag) ? expandedTags.filter(t => t !== tag)
    : [...expandedTags, tag]] *)
Definition toggled (tag : string) (expandedTags : list string) : list string :=
  if existsb (String.eqb tag) expandedTags
  then filter (fun t => negb (String.eqb t tag)) expandedTags
  else expandedTags ++ [tag].

Definition toggleTag (tag : string) (s : ApiState.t) : ApiState.t :=
  {| ApiState.spec := ApiState.spec s;
     ApiState.isLoading := ApiState.isLoading s;
     ApiState.error := ApiState.error s;
     ApiState.selectedEndpoint := ApiState.selectedEndpoint s;
     ApiState.selectedSchema := ApiState.selectedSchema s;
     ApiState.searchQuery := ApiState.searchQuery s;
     ApiState.expandedTags := toggled tag (ApiState.expandedTags s);
     ApiState.activeTab := ApiState.activeTab s;
     ApiState.lastResponse := ApiState.lastResponse s;
     ApiState.isRequestLoading := ApiState.isRequestLoading s;
     ApiState.isDarkMode := ApiState.isDarkMode s |}.

Definition reset (s : ApiState.t) : ApiState.t :=
  {| ApiState.spec := None;
     ApiState.isLoading := false;
     ApiState.error := None;
     ApiState.selectedEndpoint := None;
     ApiState.selectedSchema := None;
     ApiState.searchQuery := EmptyString;
     ApiState.expandedTags := [];
     ApiState.activeTab := ApiState.activeTab s;
     ApiState.lastResponse := None;
     ApiState.isRequestLoading := ApiState.isRequestLoading s;
     ApiState.isDarkMode := ApiState.isDarkMode s |}.

(** ** Loading a file, [Header.tsx] lines 14-26 (and the welcome screen) *)

Section Upload.

Variable JSON_parse : string -> option JValue.
Variable yaml_load : string -> option JValue.

(** The message of the runtime's [TypeError], which the engine words. *)
Variable type_error_message : string.

(** [err.message]: both exceptions are instances of [Error]. *)
Definition message_of (e : Exn) : string :=
  match e with
  | Error message => message
  | TypeError => type_error_message
  end.

(** [handleFileUpload], with the text of the chosen file, if any, and no
    other action in between; while the parser has not ended the state is
    the one [setLoading(true)] left. *)
Definition handleFileUpload (file : option string) (s : ApiState.t) : ApiState.t :=
  match file with
  | None => s
  | Some text =>
      let loading := setLoading true s in
      match parseOpenApiSpec JSON_parse yaml_load (JStr text) with
      | Ret parsed => setSpec (Some parsed) loading
      | Throw err => setError (Some (message_of err)) loading
      | OutOfFuel => loading
      end
  end.

End Upload.

(** ** Grouping endpoints by tag, [Sidebar.tsx] lines 15-23 *)

(** [v[0]] for [v] that is neither [null] nor [undefined]. *)
Definition item0 (v : JValue) : JValue :=
  match v with
  | JArr (x :: _) => x
  | JStr (String c _) => JStr (String c EmptyString)
  | JObj fs => prop v "0"
  | _ => JUndefined
  end.

(** [endpoint.tags[0] || 'default'] *)
Definition groupKey (e : Endpoint.t) : Outcome JValue :=
  if is_nullish (Endpoint.tags e) then Throw TypeError
  else Ret (or_else (item0 (Endpoint.tags e)) (JStr "default")).

(** One round of the loop on the [Map], kept as the list of its entries in
    insertion order: [has], [set] of an empty list when the key is new,
    then [get] and [push]. *)
Fixpoint addToGroup (groups : list (JValue * list Endpoint.t)) (tag : JValue)
    (e : Endpoint.t) : list (JValue * list Endpoint.t) :=
  match groups with
  | [] => [(tag, [e])]
  | (t, es) :: rest =>
      if same_value_zero t tag then (t, es ++ [e]) :: rest
      else (t, es) :: addToGroup rest tag e
  end.

Fixpoint groupInto (groups : list (JValue * list Endpoint.t)) (endpoints : list Endpoint.t)
  : Outcome (list (JValue * list Endpoint.t)) :=
  match endpoints with
  | [] => Ret groups
  | e :: rest => tag <- groupKey e ;; groupInto (addToGroup groups tag e) rest
  end.

Definition endpointsByTag (endpoints : list Endpoint.t)
  : Outcome (list (JValue * list Endpoint.t)) :=
  groupInto [] endpoints.

(** ** [lib/utils.ts] and the name of a reference *)

(** [getStatusColor], lines 21-26, on an integer status. *)
Definition getStatusColor (status : Z) : string :=
  if (200 <=? status)%Z && (status <? 300)%Z then "text-status-success"
  else if (300 <=? status)%Z && (status <? 400)%Z then "text-status-redirect"
  else if (400 <=? status)%Z && (status <? 500)%Z then "text-status-client"
  else "text-status-server".

(** [s.split('/')]: the segments between slashes, at least one. *)
Fixpoint split_slash (s : string) : list string :=
  match s with
  | EmptyString => [EmptyString]
  | String c s' =>
      if Ascii.eqb c "/"%char then EmptyString :: split_slash s'
      else match split_slash s' with
           | [] => [String c EmptyString]
           | segment :: segments => String c segment :: segments
           end
  end.

(** [ref.split('/').pop()], [SchemaViewer.tsx] line 208 and
    [EndpointDetail.tsx] line 252. *)
Definition refName (ref : string) : string := last (split_slash ref) EmptyString.

(** ** Vocabulary of the properties *)

(** [settles throwable o]: the computation [o] ends, with a value or with
    an exception that [throwable] allows; it does not run out of fuel. *)
Definition settles {A : Type} (throwable : Exn -> Prop) (o : Outcome A) : Prop :=
  match o with
  | Ret _ => True
  | Throw e => throwable e
  | OutOfFuel => False
  end.

(** No exception at all, and nothing but the runtime's [TypeError]. *)
Definition nothing : Exn -> Prop := fun _ => False.
Definition type_error : Exn -> Prop := fun e => e = TypeError.

(** The members of a list in the order of their first occurrence, one
    occurrence each: the set of distinct values, in first-seen order. *)
Fixpoint first_seen (l : list JValue) : list JValue :=
  match l with
  | [] => []
  | x :: l' => x :: filter (fun y => negb (same_value_zero x y)) (first_seen l')
  end.

(** The tag names the endpoints reference, in the order of the endpoints. *)
Definition referenced_tags (endpoints : list Endpoint.t) : list JValue :=
  flat_map (fun e => match Endpoint.tags e with JArr ts => ts | _ => [] end) endpoints.

Definition tag_named (name : JValue) : JValue := JObj [("name", name)].

(** The path entries of a document, and its path-template/method pairs
    that bear an operation: a method of the enumeration whose key holds a
    truthy value, as every object is. *)
Definition path_entries (spec : JValue) : list (string * JValue) :=
  Object_entries (or_else (prop spec "paths") (JObj [])).

Definition bears_operation (pathItem : JValue) (m : HttpMethod) : bool :=
  truthy (prop pathItem (method_name m)).




(** An endpoint built for the path entry [entry] and the method [m]. *)
Definition built_for (entry : string * JValue) (m : HttpMethod) (e : Endpoint.t) : Prop :=
  exists pathParams,
    parseOperation (fst entry) pathParams m (prop (snd entry) (method_name m)) = Ret e.

(** *** Shapes: the interfaces at the head of [openApiParser.ts], lines 4-83,
    read with every field optional *)

Definition absent_or (P : JValue -> Prop) (v : JValue) : Prop :=
  v = JUndefined \/ P v.

Definition object (v : JValue) : Prop := exists fs, v = JObj fs.

Definition array_of (P : JValue -> Prop) (v : JValue) : Prop :=
  exists xs, v = JArr xs /\ Forall P xs.

Definition record_of (P : JValue -> Prop) (v : JValue) : Prop :=
  exists fs, v = JObj fs /\ Forall (fun kv => P (snd kv)) fs.

Definition anything : JValue -> Prop := fun _ => True.

(** [OpenAPISchema] *)
Inductive schema_shape : JValue -> Prop :=
| schema_shape_intro (fs : list (string * JValue)) :
    absent_or schema_shape (prop (JObj fs) "items") ->
    absent_or (record_of schema_shape) (prop (JObj fs) "properties") ->
    absent_or (array_of schema_shape) (prop (JObj fs) "oneOf") ->
    absent_or (array_of schema_shape) (prop (JObj fs) "anyOf") ->
    absent_or (array_of schema_shape) (prop (JObj fs) "allOf") ->
    schema_shape (JObj fs).

(** [OpenAPIParameter], and an entry of a [content] map *)
Definition carries_schema (v : JValue) : Prop :=
  object v /\ absent_or schema_shape (prop v "schema").

(** A request body, and a response *)
Definition carries_content (v : JValue) : Prop :=
  object v /\ absent_or (record_of carries_schema) (prop v "content").

(** [Operation] *)
Definition operation_shape (v : JValue) : Prop :=
  object v /\
  absent_or (array_of carries_schema) (prop v "parameters") /\
  absent_or carries_content (prop v "requestBody") /\
  absent_or (record_of carries_content) (prop v "responses") /\
  absent_or (array_of object) (prop v "security") /\
  absent_or (array_of anything) (prop v "tags").

(** [PathItem] *)
Definition path_item_shape (v : JValue) : Prop :=
  object v /\
  absent_or (array_of carries_schema) (prop v "parameters") /\
  forall m, absent_or operation_shape (prop v (method_name m)).

Definition components_shape (v : JValue) : Prop :=
  object v /\
  absent_or (record_of schema_shape) (prop v "schemas") /\
  absent_or (record_of object) (prop v "securitySchemes").

(** [OpenAPISpec], with its [info] block. *)
Definition document_shape (v : JValue) : Prop :=
  object v /\
  object (prop v "info") /\
  absent_or (record_of path_item_shape) (prop v "paths") /\
  absent_or components_shape (prop v "components").

(** The dialect gate of line 104 lets the document through. *)
Definition passes_gate (spec : JValue) : bool :=
  truthy (prop spec "openapi") || truthy (prop spec "swagger").

Definition has_key (k : string) (v : JValue) : bool :=
  match v with
  | JObj fs => match lookup k fs with Some _ => true | None => false end
  | _ => false
  end.

(** The SchemaRef that holds a reference and nothing else. *)
Definition reference_only (r : string) : SchemaRef.t :=
  SchemaRef.mk JUndefined (JStr r) JUndefined JUndefined JUndefined None None
               JUndefined JUndefined JUndefined None None None.

(** The parameter examples of a model, endpoint by endpoint. *)
Definition parameter_examples (api : ApiSpec.t) : list (list JValue) :=
  map (fun e => map Param.example (Endpoint.parameters e)) (ApiSpec.endpoints api).

(** The named schemas and security schemes of a document. *)
Definition schema_entries (spec : JValue) : list (string * JValue) :=
  Object_entries (or_else (prop (prop spec "components") "schemas") (JObj [])).

Definition security_scheme_entries (spec : JValue) : list (string * JValue) :=
  Object_entries (or_else (prop (prop spec "components") "securitySchemes") (JObj [])).

(** Whether a string holds a slash. *)
Fixpoint has_slash (s : string) : bool :=
  match s with
  | EmptyString => false
  | String c s' => Ascii.eqb c "/"%char || has_slash s'
  end.

(** The state [reset] leads to from a state with the given tab, request
    flag and theme. *)
Definition cleared (tab : Tab) (requesting dark : bool) : ApiState.t :=
  {| ApiState.spec := None;
     ApiState.isLoading := false;
     ApiState.error := None;
     ApiState.selectedEndpoint := None;
     ApiState.selectedSchema := None;
     ApiState.searchQuery := EmptyString;
     ApiState.expandedTags := [];
     ApiState.activeTab := tab;
     ApiState.lastResponse := None;
     ApiState.isRequestLoading := requesting;
     ApiState.isDarkMode := dark |}.

(** What the groups keep while endpoints are added: no group is empty,
    and each member's key is the group's, up to the equality of [Map]. *)
Definition grouped (group : JValue * list Endpoint.t) : Prop :=
  snd group <> [] /\
  Forall (fun e => exists key, groupKey e = Ret key /\
                               (key = fst group \/ same_value_zero (fst group) key = true))
         (snd group).

(** *** Sample documents *)

(** The minimal document of the end-to-end scenario. *)
Definition pets_document : JValue :=
  JObj [("openapi", JStr "3.0.0");
        ("info", JObj [("title", JStr "T"); ("version", JStr "1.0")]);
        ("paths", JObj [("/pets/{id}", JObj [("get", JObj [
           ("parameters", JArr [JObj [("name", JStr "id"); ("in", JStr "path");
                                      ("schema", JObj [("type", JStr "string")])]]);
           ("responses", JObj [("200", JObj [
              ("description", JStr "ok");
              ("content", JObj [("application/json", JObj [
                 ("schema", JObj [("type", JStr "object");
                                  ("properties",
                                   JObj [("name", JObj [("type", JStr "string")])])])])])])])])])])].

(** [{ "openapi": "3.0.0" }] *)
Definition no_info : JValue := JObj [("openapi", JStr "3.0.0")].

(** A reference with sibling fields. *)
Definition ref_with_siblings : JValue :=
  JObj [("$ref", JStr "#/components/schemas/Pet");
        ("type", JStr "object");
        ("properties", JObj [("id", JObj [("type", JStr "integer")])]);
        ("items", JObj [("type", JStr "string")])].

(** A list node whose [next] property refers back to the node by name. *)
Definition self_referential : JValue :=
  JObj [("type", JStr "object");
        ("properties", JObj [("value", JObj [("type", JStr "string")]);
                             ("next", JObj [("$ref", JStr "#/components/schemas/Node")])])].

(** [{ name: "id", in: "path", required: false }] *)
Definition optional_path_parameter : JValue :=
  JObj [("name", JStr "id"); ("in", JStr "path"); ("required", JBool false)].

(** A document that declares an empty tag list while its operations are tagged,
    one of them with an empty list. *)
Definition empty_tags : JValue :=
  JObj [("openapi", JStr "3.0.0");
        ("info", JObj [("title", JStr "T"); ("version", JStr "1.0")]);
        ("tags", JArr []);
        ("paths", JObj [("/pets", JObj [("get", JObj [("tags", JArr [JStr "pets"])]);
                                        ("post", JObj [("tags", JArr [])])])])].


(** An object a caller can pass and JSON cannot spell: a parameter example
    that is [NaN]. *)
Definition nan_example : JValue :=
  JObj [("openapi", JStr "3.0.0");
        ("info", JObj [("title", JStr "T"); ("version", JStr "1.0")]);
        ("paths", JObj [("/n", JObj [("get", JObj [
           ("parameters", JArr [JObj [("name", JStr "n"); ("in", JStr "query");
                                      ("example", JNum NaN)]])])])])].

(** An operation that repeats the parameter of its path item. *)
Definition repeated_parameter : JValue :=
  JObj [("openapi", JStr "3.0.0"); ("info", JObj []);
        ("paths", JObj [("/pets/{id}", JObj [
           ("parameters", JArr [JObj [("name", JStr "id"); ("in", JStr "path")]]);
           ("get", JObj [("parameters",
                          JArr [JObj [("name", JStr "id"); ("in", JStr "path")];
                                JObj [("name", JStr "q"); ("in", JStr "query")]])])])])].

(** An operation with a two-scheme security requirement and an empty one. *)
Definition two_requirements : JValue :=
  JObj [("openapi", JStr "3.0.0"); ("info", JObj []);
        ("paths", JObj [("/pets", JObj [("get", JObj [
           ("security", JArr [JObj [("oauth", JArr [JStr "read"]); ("apiKey", JArr [])];
                              JObj []])])])])].

(** An endpoint with the given tags and nothing else. *)
Definition tagged (path : string) (tags : JValue) : Endpoint.t :=
  {| Endpoint.id := ("get-" ++ path)%string;
     Endpoint.path := path;
     Endpoint.method := GET;
     Endpoint.summary := JUndefined;
     Endpoint.description := JUndefined;
     Endpoint.tags := tags;
     Endpoint.parameters := [];
     Endpoint.requestBody := None;
     Endpoint.responses := [];
     Endpoint.security := None;
     Endpoint.deprecated := JUndefined |}.

Definition tagged_endpoints : list Endpoint.t :=
  [tagged "/pets" (JArr [JStr "pets"; JStr "store"]);
   tagged "/orders" (JArr [JStr "store"]);
   tagged "/health" (JArr []);
   tagged "/users" (JArr [JStr "users"])].

(** [{ name: "id", in: "path", required: "no" }] *)
Definition string_required_parameter : JValue :=
  JObj [("name", JStr "id"); ("in", JStr "path"); ("required", JStr "no")].


(** * Properties *)

(** ** Outcomes *)

Lemma bind_Ret {A B : Type} (c : Outcome A) (k : A -> Outcome B) (b : B) :
  bind c k = Ret b -> exists a, c = Ret a /\ k a = Ret b.
Proof. destruct c; simpl; intros H; try discriminate. eauto. Qed.

Lemma bind_settles {A B : Type} throwable (c : Outcome A) (k : A -> Outcome B) :
  settles throwable c -> (forall a, c = Ret a -> settles throwable (k a)) ->
  settles throwable (bind c k).
Proof. destruct c; simpl; auto. Qed.

Lemma settles_returns {A : Type} (o : Outcome A) :
  settles nothing o -> exists a, o = Ret a.
Proof. destruct o; simpl; intros H; try contradiction. eauto. Qed.

Lemma mapM_ext {A B : Type} (f g : A -> Outcome B) (xs : list A) :
  (forall x, In x xs -> f x = g x) -> mapM f xs = mapM g xs.
Proof.
  induction xs as [|x xs IH]; simpl; intros Hfg; [reflexivity|].
  rewrite (Hfg x) by auto. rewrite IH by auto. reflexivity.
Qed.

Lemma mapM_settles {A B : Type} throwable (f : A -> Outcome B) (xs : list A) :
  (forall x, In x xs -> settles throwable (f x)) -> settles throwable (mapM f xs).
Proof.
  induction xs as [|x xs IH]; simpl; intros Hf; [exact I|].
  apply bind_settles; [auto|]. intros y _.
  apply bind_settles; [auto|]. intros ys _. exact I.
Qed.

Lemma flatMapM_settles {A B : Type} throwable (f : A -> Outcome (list B)) (xs : list A) :
  (forall x, In x xs -> settles throwable (f x)) -> settles throwable (flatMapM f xs).
Proof.
  induction xs as [|x xs IH]; simpl; intros Hf; [exact I|].
  apply bind_settles; [auto|]. intros y _.
  apply bind_settles; [auto|]. intros ys _. exact I.
Qed.

(** What a loop that pushes has collected, round by round. *)
Lemma flatMapM_Ret {A B : Type} (f : A -> Outcome (list B)) (xs : list A) (zs : list B) :
  flatMapM f xs = Ret zs ->
  exists yss, Forall2 (fun x ys => f x = Ret ys) xs yss /\ zs = List.concat yss.
Proof.
  revert zs. induction xs as [|x xs IH]; simpl; intros zs H.
  - injection H as <-. exists []. split; [constructor|reflexivity].
  - apply bind_Ret in H as (ys & Hys & H). apply bind_Ret in H as (zs' & Hzs & H).
    injection H as <-. destruct (IH _ Hzs) as (yss & HF & ->).
    exists (ys :: yss). split; [constructor; auto|reflexivity].
Qed.

(** ** Values *)

Lemma truthy_not_nullish (v : JValue) : truthy v = true -> is_nullish v = false.
Proof. destruct v; simpl; congruence. Qed.

Lemma object_truthy (fs : list (string * JValue)) : truthy (JObj fs) = true.
Proof. reflexivity. Qed.

Lemma lookup_In {A : Type} (k : string) (fs : list (string * A)) (v : A) :
  lookup k fs = Some v -> In (k, v) fs.
Proof.
  induction fs as [|[k' v'] fs IH]; simpl; [discriminate|].
  destruct (String.eqb_spec k k') as [->|Hne]; intros H.
  - injection H as ->. now left.
  - right. auto.
Qed.

Lemma depth_member (k : string) (v : JValue) (fs : list (string * JValue)) :
  In (k, v) fs -> depth v < depth (JObj fs).
Proof.
  intros Hin. simpl. apply Nat.lt_succ_r.
  induction fs as [|[k' v'] fs IH]; simpl in *; [contradiction|].
  destruct Hin as [Heq|Hin].
  - injection Heq as -> ->. apply Nat.le_max_l.
  - etransitivity; [apply IH, Hin|apply Nat.le_max_r].
Qed.

Lemma depth_element (x : JValue) (xs : list JValue) :
  In x xs -> depth x < depth (JArr xs).
Proof.
  intros Hin. simpl. apply Nat.lt_succ_r.
  induction xs as [|y xs IH]; simpl in *; [contradiction|].
  destruct Hin as [->|Hin].
  - apply Nat.le_max_l.
  - etransitivity; [apply IH, Hin|apply Nat.le_max_r].
Qed.

(** A property that is there lies strictly deeper than its owner. *)
Lemma depth_prop (o : JValue) (k : string) :
  is_nullish (prop o k) = false -> depth (prop o k) < depth o.
Proof.
  destruct o; simpl; try discriminate.
  destruct (lookup k fs) as [v|] eqn:Hl; simpl; [|discriminate].
  intros _. apply (depth_member k v fs). now apply lookup_In.
Qed.

Lemma indexed_In {A : Type} (k : string) (x : A) (xs : list A) (i : nat) :
  In (k, x) (indexed i xs) -> In x xs.
Proof.
  revert i. induction xs as [|y xs IH]; simpl; intros i; [auto|].
  intros [Heq|Hin]; [injection Heq as _ ->; now left|right; eauto].
Qed.

Lemma chars_depth (s : string) (x : JValue) : In x (chars s) -> depth x = 0.
Proof.
  induction s as [|c s IH]; simpl; [contradiction|].
  intros [<-|Hin]; auto.
Qed.

Lemma depth_entry (o : JValue) (k : string) (v : JValue) :
  In (k, v) (Object_entries o) -> depth v <= depth o.
Proof.
  destruct o; simpl; try contradiction; intros Hin.
  - apply indexed_In in Hin. apply chars_depth in Hin. lia.
  - apply indexed_In in Hin. apply depth_element in Hin. simpl in Hin. lia.
  - apply depth_member in Hin. simpl in Hin. lia.
Qed.

(** ** The schema conversion and its fuel *)

Lemma convertItems_ext (f g : JValue -> Outcome SchemaRef.t) (items : JValue) :
  (truthy items = true -> f items = g items) ->
  convertItems f items = convertItems g items.
Proof.
  unfold convertItems. destruct (truthy items); [|reflexivity].
  intros H. now rewrite H.
Qed.

Lemma convertProperties_ext (f g : JValue -> Outcome SchemaRef.t) (properties : JValue) :
  (forall k v, In (k, v) (Object_entries properties) -> f v = g v) ->
  convertProperties f properties = convertProperties g properties.
Proof.
  unfold convertProperties. destruct (truthy properties); [|reflexivity].
  intros H. erewrite mapM_ext; [reflexivity|].
  intros [k v] Hin. simpl. now rewrite (H k v).
Qed.

Lemma optional_map_ext {B : Type} (f g : JValue -> Outcome B) (v : JValue) :
  (forall xs x, v = JArr xs -> In x xs -> f x = g x) ->
  optional_map f v = optional_map g v.
Proof.
  unfold optional_map. destruct (is_nullish v); [reflexivity|].
  destruct v; simpl; try reflexivity.
  intros H. erewrite mapM_ext; [reflexivity|]. eauto.
Qed.

Lemma convertItems_settles throwable (f : JValue -> Outcome SchemaRef.t) (items : JValue) :
  (truthy items = true -> settles throwable (f items)) ->
  settles throwable (convertItems f items).
Proof.
  unfold convertItems. destruct (truthy items); [|intros _; exact I].
  intros H. apply bind_settles; [auto|]. intros r _. exact I.
Qed.

Lemma convertProperties_settles throwable (f : JValue -> Outcome SchemaRef.t)
    (properties : JValue) :
  (forall k v, In (k, v) (Object_entries properties) -> settles throwable (f v)) ->
  settles throwable (convertProperties f properties).
Proof.
  unfold convertProperties. destruct (truthy properties); [|intros _; exact I].
  intros H. apply bind_settles.
  - apply mapM_settles. intros [k v] Hin. simpl.
    apply bind_settles; [eauto|]. intros r _. exact I.
  - intros es _. exact I.
Qed.

(** [v?.map(f)] settles with an exception allowed; it returns when [v] is
    absent or an array. *)
Lemma optional_map_settles {B : Type} throwable (f : JValue -> Outcome B) (v : JValue) :
  (throwable TypeError \/ is_nullish v = true \/ exists xs, v = JArr xs) ->
  (forall xs x, v = JArr xs -> In x xs -> settles throwable (f x)) ->
  settles throwable (optional_map f v).
Proof.
  unfold optional_map. intros Hshape Hf.
  destruct (is_nullish v) eqn:Hn; [exact I|].
  destruct v; simpl in *; try discriminate;
    try (destruct Hshape as [?|[?|[? ?]]]; [assumption|discriminate|discriminate]).
  apply bind_settles; [apply mapM_settles; eauto|]. intros ys _. exact I.
Qed.

(** Children reached by one recursive call fit in one unit of fuel less. *)
Lemma child_items (schema : JValue) (fuel : nat) :
  depth schema < S fuel -> truthy (prop schema "items") = true ->
  depth (prop schema "items") < fuel.
Proof.
  intros Hd Ht. apply truthy_not_nullish, depth_prop in Ht. lia.
Qed.

Lemma child_property (schema : JValue) (fuel : nat) (k : string) (v : JValue) :
  depth schema < S fuel -> In (k, v) (Object_entries (prop schema "properties")) ->
  depth v < fuel.
Proof.
  intros Hd Hin. pose proof (depth_entry _ _ _ Hin) as Hle.
  destruct (is_nullish (prop schema "properties")) eqn:Hn.
  - destruct (prop schema "properties"); simpl in *; try discriminate; contradiction.
  - apply depth_prop in Hn. lia.
Qed.

Lemma child_member (schema : JValue) (fuel : nat) (k : string) (xs : list JValue)
    (x : JValue) :
  depth schema < S fuel -> prop schema k = JArr xs -> In x xs -> depth x < fuel.
Proof.
  intros Hd Hk Hin. apply depth_element in Hin. rewrite <- Hk in Hin.
  assert (Hn : is_nullish (prop schema k) = false) by now rewrite Hk.
  apply depth_prop in Hn. lia.
Qed.

(** What the shape of a value says about its parts. *)
Lemma record_entries (P : JValue -> Prop) (v : JValue) (k : string) (x : JValue) :
  absent_or (record_of P) v -> In (k, x) (Object_entries v) -> P x.
Proof.
  intros [->|(fs & -> & HF)]; simpl; [contradiction|].
  intros Hin. rewrite Forall_forall in HF. exact (HF (k, x) Hin).
Qed.

Lemma record_entries_or_empty (P : JValue -> Prop) (v : JValue) (k : string) (x : JValue) :
  absent_or (record_of P) v -> In (k, x) (Object_entries (or_else v (JObj []))) -> P x.
Proof.
  intros [->|(fs & -> & HF)]; simpl; [contradiction|].
  intros Hin. rewrite Forall_forall in HF. exact (HF (k, x) Hin).
Qed.

Lemma array_or_absent (P : JValue -> Prop) (v : JValue) :
  absent_or (array_of P) v -> is_nullish v = true \/ exists xs, v = JArr xs.
Proof. intros [->|(xs & -> & _)]; [now left|right; eauto]. Qed.

Lemma array_members (P : JValue -> Prop) (v : JValue) (xs : list JValue) (x : JValue) :
  absent_or (array_of P) v -> v = JArr xs -> In x xs -> P x.
Proof.
  intros [->|(ys & -> & HF)] E Hin; [discriminate|].
  injection E as ->. rewrite Forall_forall in HF. auto.
Qed.

Lemma schema_shape_truthy (schema : JValue) :
  absent_or schema_shape schema -> truthy schema = true -> schema_shape schema.
Proof. intros [->|H]; [discriminate|auto]. Qed.

Lemma get_settles throwable (o : JValue) (k : string) :
  throwable TypeError \/ is_nullish o = false -> settles throwable (get o k).
Proof.
  unfold get. destruct (is_nullish o); simpl; [|intros _; exact I].
  intros [H|H]; [exact H|discriminate].
Qed.

(** With fuel above the nesting depth the conversion ends, and it ends
    without an exception on a node of the declared shape: it never runs
    out of fuel, and it throws nothing but a [TypeError], on a node whose
    [oneOf], [anyOf] or [allOf] is not a list. *)
Lemma parseSchemaRef_rec_settles throwable (fuel : nat) :
  forall schema,
    depth schema < fuel ->
    throwable TypeError \/ absent_or schema_shape schema ->
    settles throwable (parseSchemaRef_rec fuel schema).
Proof.
  induction fuel as [|fuel IH]; intros schema Hd Hs; [lia|].
  simpl. destruct (truthy schema) eqn:Ht; simpl; [|exact I].
  assert (Hparts : throwable TypeError \/
            (absent_or schema_shape (prop schema "items") /\
             absent_or (record_of schema_shape) (prop schema "properties") /\
             absent_or (array_of schema_shape) (prop schema "oneOf") /\
             absent_or (array_of schema_shape) (prop schema "anyOf") /\
             absent_or (array_of schema_shape) (prop schema "allOf"))).
  { destruct Hs as [Hs|Hs]; [now left|right].
    apply schema_shape_truthy in Hs; [|assumption]. destruct Hs. auto. }
  assert (Hlist : forall k, k = "oneOf" \/ k = "anyOf" \/ k = "allOf" ->
            settles throwable (optional_map (parseSchemaRef_rec fuel) (prop schema k))).
  { intros k Hk. apply optional_map_settles.
    - destruct Hparts as [Hp|(_ & _ & H1 & H2 & H3)]; [now left|right].
      destruct Hk as [-> | [-> | ->]]; eapply array_or_absent; eauto.
    - intros xs x Hxs Hin. apply IH; [eapply child_member; eauto|].
      destruct Hparts as [Hp|(_ & _ & H1 & H2 & H3)]; [now left|right; right].
      destruct Hk as [-> | [-> | ->]];
        (eapply array_members; [|exact Hxs|exact Hin]; assumption). }
  apply bind_settles.
  { apply convertItems_settles. intros Hi. apply IH; [now apply child_items|].
    destruct Hparts as [Hp|(H & _)]; [now left|now right]. }
  intros items _. apply bind_settles.
  { apply convertProperties_settles. intros k v Hin.
    apply IH; [now apply child_property with (schema := schema) (k := k)|].
    destruct Hparts as [Hp|(_ & H & _)]; [now left|right; right].
    eapply record_entries; eauto. }
  intros properties _.
  repeat (apply bind_settles; [apply Hlist; tauto|intros ? _]).
  exact I.
Qed.

(** Fuel above the nesting depth does not change the result. *)
Lemma parseSchemaRef_rec_fuel (n : nat) :
  forall m schema, depth schema < n -> depth schema < m ->
  parseSchemaRef_rec n schema = parseSchemaRef_rec m schema.
Proof.
  induction n as [|n IH]; intros m schema Hn Hm; [lia|].
  destruct m as [|m]; [lia|].
  simpl. destruct (truthy schema); simpl; [|reflexivity].
  rewrite (convertItems_ext (parseSchemaRef_rec n) (parseSchemaRef_rec m)).
  2:{ intros Ht. apply IH; now apply child_items. }
  rewrite (convertProperties_ext (parseSchemaRef_rec n) (parseSchemaRef_rec m)).
  2:{ intros k v Hin. apply IH; now apply child_property with (schema := schema) (k := k). }
  rewrite (optional_map_ext (parseSchemaRef_rec n) (parseSchemaRef_rec m) (prop schema "oneOf")).
  2:{ intros xs x Hk Hin. apply IH; eapply child_member; eauto. }
  rewrite (optional_map_ext (parseSchemaRef_rec n) (parseSchemaRef_rec m) (prop schema "anyOf")).
  2:{ intros xs x Hk Hin. apply IH; eapply child_member; eauto. }
  rewrite (optional_map_ext (parseSchemaRef_rec n) (parseSchemaRef_rec m) (prop schema "allOf")).
  2:{ intros xs x Hk Hin. apply IH; eapply child_member; eauto. }
  reflexivity.
Qed.

Lemma parseSchemaRef_rec_enough (fuel : nat) (schema : JValue) :
  depth schema < fuel -> parseSchemaRef_rec fuel schema = parseSchemaRef schema.
Proof. intros Hd. apply parseSchemaRef_rec_fuel; [assumption|lia]. Qed.

(** C9. The recursive SchemaRef conversion terminates on every schema
    node: with one unit of fuel per level of nesting of the node (and one
    for the outermost call) it ends, with a SchemaRef or an exception, and
    never runs out of fuel; more fuel than that changes nothing. The bound
    is the depth of the node itself: a [$ref] is a string, at depth 0, that
    the conversion copies and does not follow. *)
Theorem parseSchemaRef_terminates (schema : JValue) :
  settles type_error (parseSchemaRef_rec (S (depth schema)) schema) /\
  (forall extra : nat,
      parseSchemaRef_rec (S (depth schema) + extra) schema
      = parseSchemaRef_rec (S (depth schema)) schema).
Proof.
  split.
  - apply parseSchemaRef_rec_settles; [lia|now left].
  - intros extra. apply parseSchemaRef_rec_fuel; lia.
Qed.

(** The node that refers back to itself by name, three levels deep,
    converts within that fuel, the reference carried as a string. *)
Example parseSchemaRef_self_referential :
  depth self_referential = 3 /\
  exists sr next,
    parseSchemaRef_rec 3 self_referential = Ret sr /\
    option_map (lookup "next") (SchemaRef.properties sr) = Some (Some next) /\
    SchemaRef.ref next = JStr "#/components/schemas/Node" /\
    SchemaRef.properties next = None.
Proof.
  split; [reflexivity|]. do 2 eexists. split; [reflexivity|].
  split; [reflexivity|]. split; reflexivity.
Qed.

(** ** References *)

Lemma convertItems_Ret (f : JValue -> Outcome SchemaRef.t) (items : JValue)
    (r : option SchemaRef.t) :
  convertItems f items = Ret r -> (r = None <-> truthy items = false).
Proof.
  unfold convertItems. destruct (truthy items).
  - intros H. apply bind_Ret in H as (x & _ & H). injection H as <-.
    split; discriminate.
  - intros H. injection H as <-. split; reflexivity.
Qed.

Lemma convertProperties_Ret (f : JValue -> Outcome SchemaRef.t) (properties : JValue)
    (r : option (list (string * SchemaRef.t))) :
  convertProperties f properties = Ret r -> (r = None <-> truthy properties = false).
Proof.
  unfold convertProperties. destruct (truthy properties).
  - intros H. apply bind_Ret in H as (x & _ & H). injection H as <-.
    split; discriminate.
  - intros H. injection H as <-. split; reflexivity.
Qed.

(** What the conversion returns for a truthy node. *)
Lemma parseSchemaRef_Ret (schema : JValue) (sr : SchemaRef.t) :
  truthy schema = true -> parseSchemaRef schema = Ret sr ->
  SchemaRef.type sr = prop schema "type" /\
  SchemaRef.ref sr = prop schema "$ref" /\
  (SchemaRef.items sr = None <-> truthy (prop schema "items") = false) /\
  (SchemaRef.properties sr = None <-> truthy (prop schema "properties") = false).
Proof.
  intros Ht. unfold parseSchemaRef. simpl. rewrite Ht. simpl. intros H.
  apply bind_Ret in H as (items & Hitems & H).
  apply bind_Ret in H as (properties & Hprops & H).
  apply bind_Ret in H as (oneOf & _ & H).
  apply bind_Ret in H as (anyOf & _ & H).
  apply bind_Ret in H as (allOf & _ & H).
  injection H as <-. simpl.
  apply convertItems_Ret in Hitems. apply convertProperties_Ret in Hprops.
  auto.
Qed.

(** C1, as the code has it. A schema node that contains a [$ref] string
    converts to a SchemaRef whose [$ref] is that string verbatim. The other
    fields are converted as for any node: [type] is the source's [type],
    and [items] and [properties] are populated exactly when the source node
    has them. A node that carries nothing beside its [$ref] converts to a
    SchemaRef with [$ref] alone. *)
Theorem reference_verbatim (schema : JValue) (r : string) :
  prop schema "$ref" = JStr r ->
  (forall sr, parseSchemaRef schema = Ret sr ->
     SchemaRef.ref sr = JStr r /\
     SchemaRef.type sr = prop schema "type" /\
     (SchemaRef.items sr = None <-> truthy (prop schema "items") = false) /\
     (SchemaRef.properties sr = None <-> truthy (prop schema "properties") = false)) /\
  ((forall k, k <> "$ref" -> prop schema k = JUndefined) ->
     parseSchemaRef schema = Ret (reference_only r)).
Proof.
  intros Href.
  assert (Ht : truthy schema = true).
  { destruct schema; simpl in Href; try discriminate. reflexivity. }
  split.
  - intros sr H. destruct (parseSchemaRef_Ret schema sr Ht H) as (Hty & Hr & Hi & Hp).
    rewrite Hr, Href. auto.
  - intros Hrest. unfold parseSchemaRef. simpl. rewrite Ht. simpl.
    rewrite Href. rewrite !Hrest by discriminate. reflexivity.
Qed.

Lemma reference_verbatim_witness :
  prop ref_with_siblings "$ref" = JStr "#/components/schemas/Pet" /\
  exists sr, parseSchemaRef ref_with_siblings = Ret sr /\
             SchemaRef.ref sr = JStr "#/components/schemas/Pet" /\
             SchemaRef.type sr = JStr "object".
Proof.
  split; [reflexivity|]. eexists. split; [reflexivity|].
  destruct (reference_verbatim ref_with_siblings _ eq_refl) as [H _].
  destruct (H _ eq_refl) as (Hr & Hty & _). split; [exact Hr|exact Hty].
Defined.

(** C1 as stated fails: beside its [$ref] the converted node keeps the
    [type], the [properties] and the [items] of the source. *)
Lemma reference_keeps_siblings :
  exists sr,
    parseSchemaRef ref_with_siblings = Ret sr /\
    SchemaRef.ref sr = JStr "#/components/schemas/Pet" /\
    SchemaRef.type sr = JStr "object" /\
    (exists ps, SchemaRef.properties sr = Some ps /\ List.length ps = 1) /\
    (exists i, SchemaRef.items sr = Some i /\ SchemaRef.type i = JStr "string").
Proof.
  eexists. split; [reflexivity|]. split; [reflexivity|]. split; [reflexivity|].
  split; eexists; split; reflexivity.
Qed.

(** ** Parameters *)

Lemma is_string_eq (v : JValue) (s : string) : is_string v s = true <-> v = JStr s.
Proof.
  destruct v; simpl; try (split; discriminate).
  rewrite String.eqb_eq. split; [intros ->; reflexivity|intros H; now injection H].
Qed.

Lemma parseParameter_required (param : JValue) (p : Param.t) :
  parseParameter param = Ret p ->
  Param.required p
  = or_else (prop param "required") (JBool (is_string (prop param "in") "path")).
Proof.
  unfold parseParameter. intros H.
  apply bind_Ret in H as (name & _ & H). apply bind_Ret in H as (schema & _ & H).
  injection H as <-. reflexivity.
Qed.

(** C2, as the code has it. A parameter whose location is [path] has a
    truthy [required] in the model: [true] when the source's [required] is
    absent or falsy, an explicit [required: false] included, and the
    source's value as it is when that value is truthy. In any other
    location the flag is the source's when that is truthy and [false]
    otherwise. With a source [required] that is a boolean or absent, as
    [OpenAPIParameter] declares it, a path parameter's flag is [true]. *)
Theorem path_parameter_required (param : JValue) (p : Param.t) :
  parseParameter param = Ret p ->
  (prop param "in" = JStr "path" ->
     truthy (Param.required p) = true /\
     (truthy (prop param "required") = false -> Param.required p = JBool true) /\
     (truthy (prop param "required") = true -> Param.required p = prop param "required") /\
     (prop param "required" = JUndefined \/ (exists b, prop param "required" = JBool b) ->
      Param.required p = JBool true)) /\
  (prop param "in" <> JStr "path" ->
     (truthy (prop param "required") = true -> Param.required p = prop param "required") /\
     (truthy (prop param "required") = false -> Param.required p = JBool false)).
Proof.
  intros H. rewrite (parseParameter_required _ _ H). unfold or_else. split.
  - intros Hin. apply is_string_eq in Hin. rewrite Hin.
    split; [|split; [|split]].
    + destruct (truthy (prop param "required")) eqn:E; [exact E|reflexivity].
    + intros ->. reflexivity.
    + intros ->. reflexivity.
    + intros [->|[[|] ->]]; reflexivity.
  - intros Hin.
    assert (Hs : is_string (prop param "in") "path" = false).
    { destruct (is_string (prop param "in") "path") eqn:E; [|reflexivity].
      apply is_string_eq in E. contradiction. }
    rewrite Hs. split; intros ->; reflexivity.
Qed.

Lemma path_parameter_required_witness :
  exists p, parseParameter optional_path_parameter = Ret p /\
            Param.required p = JBool true.
Proof.
  eexists. split; [reflexivity|].
  destruct (proj1 (path_parameter_required optional_path_parameter _ eq_refl) eq_refl)
    as (_ & _ & _ & H).
  apply H. right. exists false. reflexivity.
Defined.

(** C2 as stated fails: a path parameter whose source says
    [required: "no"] keeps that string as its flag. *)
Lemma truthy_required_kept :
  exists p,
    parseParameter string_required_parameter = Ret p /\
    Param.in_ p = JStr "path" /\
    Param.required p = JStr "no".
Proof. eexists. split; [reflexivity|]. split; reflexivity. Qed.

(** ** Endpoints *)

Lemma Forall2_In_r {A B : Type} (R : A -> B -> Prop) (xs : list A) (ys : list B) (y : B) :
  Forall2 R xs ys -> In y ys -> exists x, In x xs /\ R x y.
Proof.
  induction 1 as [|x y' xs ys HR _ IH]; simpl; [contradiction|].
  intros [<-|Hin].
  - exists x. auto.
  - destruct (IH Hin) as (x' & Hx & HR'). exists x'. auto.
Qed.

Lemma parseOperation_Ret (path : string) (pathParams : JValue) (m : HttpMethod)
    (operation : JValue) (e : Endpoint.t) :
  parseOperation path pathParams m operation = Ret e ->
  Endpoint.id e = (method_name m ++ "-" ++ path)%string /\
  Endpoint.path e = path /\
  Endpoint.method e = m /\
  Endpoint.tags e = or_else (prop operation "tags") (JArr [JStr "default"]).
Proof.
  unfold parseOperation. intros H.
  apply bind_Ret in H as (shared & _ & H). apply bind_Ret in H as (own & _ & H).
  apply bind_Ret in H as (parameters & _ & H).
  apply bind_Ret in H as (requestBody & _ & H).
  apply bind_Ret in H as (responses & _ & H).
  apply bind_Ret in H as (security & _ & H).
  injection H as <-. simpl. auto.
Qed.

(** The loop over [methods] builds one endpoint for each method that bears
    an operation, in the order of the enumeration, and nothing else. *)
Lemma pathEndpoints_Ret (entry : string * JValue) (es : list Endpoint.t) :
  pathEndpoints entry = Ret es ->
  Forall2 (built_for entry) (filter (bears_operation (snd entry)) methods) es.
Proof.
  destruct entry as [path pathItem]. unfold pathEndpoints. intros H.
  apply bind_Ret in H as (parameters & _ & H).
  apply flatMapM_Ret in H as (yss & HF & ->).
  induction HF as [|m ys ms yss Hm _ IH]; simpl; [constructor|].
  unfold bears_operation at 1. simpl.
  destruct (truthy (prop pathItem (method_name m))); simpl in Hm.
  - apply bind_Ret in Hm as (e & He & Hm). injection Hm as <-. simpl.
    constructor; [|exact IH]. eexists. exact He.
  - injection Hm as <-. exact IH.
Qed.

(** What [normalize] went through when it returned. *)
Lemma normalize_Ret (spec : JValue) (api : ApiSpec.t) :
  normalize spec = Ret api ->
  passes_gate spec = true /\
  flatMapM pathEndpoints (path_entries spec) = Ret (ApiSpec.endpoints api) /\
  (if truthy (prop spec "tags") then Ret (prop spec "tags")
   else extractTags (ApiSpec.endpoints api)) = Ret (ApiSpec.tags api).
Proof.
  unfold normalize, passes_gate. intros H.
  apply bind_Ret in H as (openapi & Hget & H).
  unfold get in Hget. destruct (is_nullish spec); [discriminate|].
  injection Hget as <-.
  destruct (truthy (prop spec "openapi")); destruct (truthy (prop spec "swagger"));
    simpl in H; try discriminate;
    apply bind_Ret in H as (endpoints & Hendpoints & H);
    apply bind_Ret in H as (schemas & _ & H);
    apply bind_Ret in H as (securitySchemes & _ & H);
    apply bind_Ret in H as (title & _ & H);
    apply bind_Ret in H as (tags & Htags & H);
    injection H as <-; simpl; auto.
Qed.

Lemma endpoints_Ret (entries : list (string * JValue)) (es : list Endpoint.t) :
  flatMapM pathEndpoints entries = Ret es ->
  exists ess,
    Forall2 (fun entry es' =>
               Forall2 (built_for entry) (filter (bears_operation (snd entry)) methods) es')
            entries ess /\
    es = List.concat ess.
Proof.
  intros H. apply flatMapM_Ret in H as (ess & HF & ->).
  exists ess. split; [|reflexivity].
  induction HF; constructor; auto using pathEndpoints_Ret.
Qed.

(** Every endpoint of the model comes from a path entry and a method of
    the enumeration whose key bears an operation. *)
Lemma endpoint_origin (spec : JValue) (api : ApiSpec.t) (e : Endpoint.t) :
  normalize spec = Ret api -> In e (ApiSpec.endpoints api) ->
  exists pathItem,
    In (Endpoint.path e, pathItem) (path_entries spec) /\
    bears_operation pathItem (Endpoint.method e) = true /\
    built_for (Endpoint.path e, pathItem) (Endpoint.method e) e.
Proof.
  intros H Hin. apply normalize_Ret in H as (_ & H & _).
  apply endpoints_Ret in H as (ess & HF & Hes). rewrite Hes in Hin.
  apply in_concat in Hin as (es & Hes' & Hin).
  destruct (Forall2_In_r _ _ _ _ HF Hes') as ([path pathItem] & Hentry & Hbuilt).
  destruct (Forall2_In_r _ _ _ _ Hbuilt Hin) as (m & Hm & Hb).
  apply filter_In in Hm as [_ Hm]. simpl in *.
  pose proof Hb as [pathParams Hop].
  apply parseOperation_Ret in Hop as (_ & Hpath & Hmethod & _).
  simpl in *. subst path m. exists pathItem. auto.
Qed.











(** ** Tags *)

Lemma prop_absent (k : string) (v : JValue) : has_key k v = false -> prop v k = JUndefined.
Proof.
  destruct v; simpl; try reflexivity.
  destruct (lookup k fs); [discriminate|reflexivity].
Qed.



Lemma Qeq_bool_comm (p q : Q) : Qeq_bool p q = Qeq_bool q p.
Proof.
  destruct (Qeq_bool p q) eqn:E1, (Qeq_bool q p) eqn:E2; try reflexivity.
  - apply Qeq_bool_sym in E1. congruence.
  - apply Qeq_bool_sym in E2. congruence.
Qed.

Lemma same_value_zero_sym (a b : JValue) : same_value_zero a b = same_value_zero b a.
Proof.
  destruct a as [| |x|[|x|p]|s|xs|fs], b as [| |y|[|y|q]|t|ys|gs]; simpl;
    try reflexivity.
  - destruct x, y; reflexivity.
  - destruct x, y; reflexivity.
  - apply Qeq_bool_comm.
  - apply String.eqb_sym.
Qed.

Lemma same_value_zero_trans (a b c : JValue) :
  same_value_zero a b = true -> same_value_zero b c = true -> same_value_zero a c = true.
Proof.
  destruct a as [| |x|[|x|p]|s|xs|fs], b as [| |y|[|y|q]|t|ys|gs]; simpl;
    try discriminate; intros Hab;
    destruct c as [| |z|[|z|r]|u|zs|hs]; simpl; try discriminate; intros Hbc;
    try reflexivity.
  - destruct x, y, z; simpl in *; congruence.
  - destruct x, y, z; simpl in *; congruence.
  - eapply Qeq_bool_trans; eauto.
  - apply String.eqb_eq in Hab, Hbc. apply String.eqb_eq. congruence.
Qed.

(** [known set y]: [set.has(y)] *)
Lemma known_congruent (set : list JValue) (x y : JValue) :
  same_value_zero x y = true ->
  existsb (same_value_zero x) set = true -> existsb (same_value_zero y) set = true.
Proof.
  intros Hxy Hx. apply existsb_exists in Hx as (a & Hin & Ha).
  apply existsb_exists. exists a. split; [assumption|].
  apply same_value_zero_trans with (b := x); [|assumption].
  now rewrite same_value_zero_sym.
Qed.

Lemma filter_filter {A : Type} (p q : A -> bool) (l : list A) :
  filter p (filter q l) = filter (fun x => q x && p x) l.
Proof.
  induction l as [|x l IH]; simpl; [reflexivity|].
  destruct (q x); simpl; [destruct (p x)|]; now rewrite IH.
Qed.

(** Adding the members of [l] one by one to a [Set] appends to it those it
    does not have yet, in first-seen order. *)
Lemma Set_add_all (l : list JValue) :
  forall set,
    fold_left Set_add l set
    = set ++ filter (fun y => negb (existsb (same_value_zero y) set)) (first_seen l).
Proof.
  induction l as [|x l IH]; intros set; simpl; [now rewrite app_nil_r|].
  rewrite IH. unfold Set_add.
  destruct (existsb (same_value_zero x) set) eqn:Hx; simpl.
  - f_equal. rewrite filter_filter. apply filter_ext_in. intros y _.
    destruct (same_value_zero x y) eqn:Hxy; simpl; [|reflexivity].
    now rewrite (known_congruent set x y Hxy Hx).
  - rewrite <- app_assoc. simpl. do 2 f_equal.
    rewrite filter_filter. apply filter_ext_in. intros y _.
    rewrite existsb_app. simpl. rewrite orb_false_r, negb_orb.
    rewrite (same_value_zero_sym y x). apply andb_comm.
Qed.

Lemma collectTags_Ret (endpoints : list Endpoint.t) :
  forall set tagSet,
    collectTags endpoints set = Ret tagSet ->
    tagSet = fold_left Set_add (referenced_tags endpoints) set.
Proof.
  induction endpoints as [|e rest IH]; simpl; intros set tagSet H.
  - now injection H as <-.
  - apply bind_Ret in H as (ts & Hts & H).
    destruct (Endpoint.tags e); simpl in Hts; try discriminate.
    injection Hts as ->. rewrite fold_left_app. now apply IH.
Qed.

Lemma extractTags_Ret (endpoints : list Endpoint.t) (tags : JValue) :
  extractTags endpoints = Ret tags ->
  tags = JArr (map tag_named (first_seen (referenced_tags endpoints))).
Proof.
  unfold extractTags. intros H. apply bind_Ret in H as (tagSet & Hset & H).
  injection H as <-. apply collectTags_Ret in Hset. rewrite Set_add_all in Hset.
  simpl in Hset. rewrite Hset. do 2 f_equal.
  clear Hset.
  induction (first_seen (referenced_tags endpoints)) as [|x l IH]; simpl;
    [reflexivity|now rewrite IH].
Qed.




(** C4, as the code has it. An endpoint's tags are the tags of its source
    operation when the operation declares a list, an empty list included,
    and the one-element list [["default"]] when the operation has no tags
    field (or a falsy one); so the list is non-empty unless the source
    declares an empty list. *)
Theorem endpoint_tags (spec : JValue) (api : ApiSpec.t) (e : Endpoint.t) :
  normalize spec = Ret api -> In e (ApiSpec.endpoints api) ->
  exists pathItem operation,
    In (Endpoint.path e, pathItem) (path_entries spec) /\
    operation = prop pathItem (method_name (Endpoint.method e)) /\
    truthy operation = true /\
    (truthy (prop operation "tags") = false -> Endpoint.tags e = JArr [JStr "default"]) /\
    (has_key "tags" operation = false -> Endpoint.tags e = JArr [JStr "default"]) /\
    (forall ts, prop operation "tags" = JArr ts -> Endpoint.tags e = JArr ts).
Proof.
  intros H Hin. destruct (endpoint_origin _ _ _ H Hin) as (pathItem & Hentry & Hb & [pp Hop]).
  exists pathItem, (prop pathItem (method_name (Endpoint.method e))).
  apply parseOperation_Ret in Hop as (_ & _ & _ & Htags). simpl in Htags.
  repeat split; auto.
  - intros Ht. rewrite Htags. unfold or_else. now rewrite Ht.
  - intros Hk. rewrite Htags, (prop_absent _ _ Hk). reflexivity.
  - intros ts Hts. rewrite Htags, Hts. reflexivity.
Qed.

Lemma endpoint_tags_witness :
  exists api e,
    normalize pets_document = Ret api /\
    ApiSpec.endpoints api = [e] /\
    Endpoint.tags e = JArr [JStr "default"].
Proof.
  do 2 eexists. split; [reflexivity|]. split; [reflexivity|].
  match goal with
  | |- Endpoint.tags ?e = _ =>
      destruct (endpoint_tags pets_document _ e eq_refl (or_introl eq_refl))
        as (pathItem & operation & Hentry & Hop & _ & _ & _ & _)
  end.
  reflexivity.
Defined.

(** C4 as stated fails: an operation that declares an empty tag list
    yields an endpoint whose tag list is empty. *)
Lemma empty_operation_tags_kept :
  exists api e,
    normalize empty_tags = Ret api /\
    In e (ApiSpec.endpoints api) /\
    Endpoint.id e = "post-/pets" /\
    prop (prop (prop (prop empty_tags "paths") "/pets") "post") "tags" = JArr [] /\
    Endpoint.tags e = JArr [].
Proof.
  do 2 eexists. split; [reflexivity|].
  split; [right; left; reflexivity|]. split; [reflexivity|]. split; reflexivity.
Qed.

(** ** How normalization ends

    Each lemma reads: the function ends, without an exception on a value
    of the declared shape, and with nothing but a [TypeError] on any
    other. *)

Lemma parseSchemaRef_settles throwable (schema : JValue) :
  throwable TypeError \/ absent_or schema_shape schema ->
  settles throwable (parseSchemaRef schema).
Proof. intros H. apply parseSchemaRef_rec_settles; [lia|exact H]. Qed.

Lemma object_not_nullish (v : JValue) : object v -> is_nullish v = false.
Proof. intros [fs ->]. reflexivity. Qed.

Lemma parseParameter_settles throwable (param : JValue) :
  throwable TypeError \/ carries_schema param ->
  settles throwable (parseParameter param).
Proof.
  intros H. unfold parseParameter. apply bind_settles.
  { apply get_settles. destruct H as [H|[H _]]; [now left|right].
    now apply object_not_nullish. }
  intros name _. apply bind_settles.
  { apply parseSchemaRef_settles. destruct H as [H|[_ H]]; [now left|now right]. }
  intros schema _. exact I.
Qed.

Lemma fillContent_settles throwable (entries : list (string * JValue)) :
  (forall k v, In (k, v) entries -> throwable TypeError \/ carries_schema v) ->
  forall content, settles throwable (fillContent entries content).
Proof.
  induction entries as [|[mediaType mediaContent] rest IH]; simpl; intros H content;
    [exact I|].
  assert (Hm : throwable TypeError \/ carries_schema mediaContent) by (eapply H; eauto).
  apply bind_settles.
  { apply get_settles. destruct Hm as [Hm|[Hm _]]; [now left|right].
    now apply object_not_nullish. }
  intros schema Hschema. apply bind_settles.
  { apply parseSchemaRef_settles. destruct Hm as [Hm|[Ho Hm]]; [now left|right].
    unfold get in Hschema. rewrite (object_not_nullish _ Ho) in Hschema.
    now injection Hschema as <-. }
  intros converted _. apply IH. eauto.
Qed.

Lemma parseContent_settles throwable (content : JValue) :
  throwable TypeError \/ absent_or (record_of carries_schema) content ->
  settles throwable (parseContent content).
Proof.
  intros H. unfold parseContent. apply fillContent_settles. intros k v Hin.
  destruct H as [H|H]; [now left|right]. eapply record_entries_or_empty; eauto.
Qed.

Lemma parseRequestBody_settles throwable (body : JValue) :
  throwable TypeError \/ absent_or carries_content body ->
  settles throwable (parseRequestBody body).
Proof.
  intros H. unfold parseRequestBody. destruct (truthy body) eqn:Ht; simpl; [|exact I].
  apply bind_settles; [|intros content _; exact I].
  apply parseContent_settles. destruct H as [H|[->|[_ H]]]; [now left|discriminate|now right].
Qed.

Lemma parseResponse_settles throwable (entry : string * JValue) :
  throwable TypeError \/ carries_content (snd entry) ->
  settles throwable (parseResponse entry).
Proof.
  destruct entry as [statusCode response]. simpl. intros H. apply bind_settles.
  { apply get_settles. destruct H as [H|[H _]]; [now left|right].
    now apply object_not_nullish. }
  intros declared Hd. apply bind_settles; [|intros content _; exact I].
  apply parseContent_settles. destruct H as [H|[Ho H]]; [now left|right].
  unfold get in Hd. rewrite (object_not_nullish _ Ho) in Hd. now injection Hd as <-.
Qed.

Lemma parseResponses_settles throwable (responses : JValue) :
  throwable TypeError \/ absent_or (record_of carries_content) responses ->
  settles throwable (parseResponses responses).
Proof.
  intros H. unfold parseResponses. destruct (truthy responses); simpl; [|exact I].
  apply mapM_settles. intros [k v] Hin. apply parseResponse_settles. simpl.
  destruct H as [H|H]; [now left|right]. eapply record_entries; eauto.
Qed.

Lemma parseSchema_settles throwable (name : string) (schema : JValue) :
  throwable TypeError \/ schema_shape schema ->
  settles throwable (parseSchema name schema).
Proof.
  intros H. unfold parseSchema.
  assert (Hparts : throwable TypeError \/
            (is_nullish schema = false /\
             absent_or schema_shape (prop schema "items") /\
             absent_or (record_of schema_shape) (prop schema "properties"))).
  { destruct H as [H|H]; [now left|right]. destruct H. auto. }
  apply bind_settles.
  { apply get_settles. destruct Hparts as [H'|(H' & _)]; [now left|now right]. }
  intros type _. apply bind_settles.
  { apply convertProperties_settles. intros k v Hin. apply parseSchemaRef_settles.
    destruct Hparts as [H'|(_ & _ & H')]; [now left|right; right].
    eapply record_entries; eauto. }
  intros properties _. apply bind_settles; [|intros items _; exact I].
  apply convertItems_settles. intros _. apply parseSchemaRef_settles.
  destruct Hparts as [H'|(_ & H' & _)]; [now left|now right].
Qed.

Lemma parseSecurityScheme_settles throwable (entry : string * JValue) :
  throwable TypeError \/ object (snd entry) ->
  settles throwable (parseSecurityScheme entry).
Proof.
  destruct entry as [name scheme]. simpl. intros H.
  apply bind_settles; [|intros type _; exact I].
  apply get_settles. destruct H as [H|H]; [now left|right]. now apply object_not_nullish.
Qed.

Lemma spread_settles throwable (P : JValue -> Prop) (v : JValue) :
  throwable TypeError \/ array_of P v -> settles throwable (spread v).
Proof.
  intros [H|(xs & -> & _)]; [|exact I]. destruct v; simpl; auto.
Qed.

Lemma spread_members (P : JValue -> Prop) (v : JValue) (xs : list JValue) :
  array_of P v -> spread v = Ret xs -> Forall P xs.
Proof. intros (ys & -> & HF) H. simpl in H. now injection H as <-. Qed.

Lemma or_empty_array (P : JValue -> Prop) (v : JValue) :
  absent_or (array_of P) v -> array_of P (or_else v (JArr [])).
Proof.
  intros [->|(xs & -> & HF)]; simpl.
  - exists []. split; [reflexivity|constructor].
  - exists xs. split; [reflexivity|assumption].
Qed.

Lemma first_key_settles throwable (v : JValue) :
  throwable TypeError \/ object v -> settles throwable (first_key v).
Proof.
  unfold first_key. intros [H|H].
  - destruct (is_nullish v); simpl; auto.
  - now rewrite (object_not_nullish _ H).
Qed.

Lemma parseOperation_settles throwable (path : string) (pathParams : JValue)
    (m : HttpMethod) (operation : JValue) :
  throwable TypeError \/ (array_of carries_schema pathParams /\ operation_shape operation) ->
  settles throwable (parseOperation path pathParams m operation).
Proof.
  intros H. unfold parseOperation. apply bind_settles.
  { apply spread_settles with (P := carries_schema).
    destruct H as [H|(H & _)]; [now left|now right]. }
  intros shared Hshared. apply bind_settles.
  { apply spread_settles with (P := carries_schema).
    destruct H as [H|(_ & _ & H & _)]; [now left|right]. now apply or_empty_array. }
  intros own Hown. apply bind_settles.
  { apply mapM_settles. intros param Hin. apply parseParameter_settles.
    destruct H as [H|(Hp & _ & Ho & _)]; [now left|right].
    apply (spread_members _ _ _ Hp) in Hshared.
    apply (spread_members _ _ _ (or_empty_array _ _ Ho)) in Hown.
    rewrite Forall_forall in Hshared, Hown.
    apply in_app_or in Hin as [Hin|Hin]; auto. }
  intros parameters _. apply bind_settles.
  { apply parseRequestBody_settles.
    destruct H as [H|(_ & _ & _ & H & _)]; [now left|now right]. }
  intros requestBody _. apply bind_settles.
  { apply parseResponses_settles.
    destruct H as [H|(_ & _ & _ & _ & H & _)]; [now left|now right]. }
  intros responses _. apply bind_settles; [|intros security _; exact I].
  apply optional_map_settles.
  - destruct H as [H|(_ & _ & _ & _ & _ & H & _)]; [now left|right].
    eapply array_or_absent; eauto.
  - intros xs x Hxs Hin. apply first_key_settles.
    destruct H as [H|(_ & _ & _ & _ & _ & H & _)]; [now left|right].
    eapply array_members; eauto.
Qed.

Lemma pathEndpoints_settles throwable (entry : string * JValue) :
  throwable TypeError \/ path_item_shape (snd entry) ->
  settles throwable (pathEndpoints entry).
Proof.
  destruct entry as [path pathItem]. cbn [snd]. intros H.
  unfold pathEndpoints. apply bind_settles.
  { apply get_settles. destruct H as [H|(H & _)]; [now left|right].
    now apply object_not_nullish. }
  intros parameters Hp. apply flatMapM_settles. intros m _. cbn beta zeta.
  destruct (truthy (prop pathItem (method_name m))) eqn:Ht; simpl; [|exact I].
  apply bind_settles; [|intros e _; exact I].
  apply parseOperation_settles. destruct H as [H|(Ho & Hps & Hm)]; [now left|right].
  unfold get in Hp. rewrite (object_not_nullish _ Ho) in Hp. injection Hp as <-.
  split; [now apply or_empty_array|].
  destruct (Hm m) as [E|Hop]; [|exact Hop]. rewrite E in Ht. discriminate.
Qed.

Lemma collectTags_settles throwable (endpoints : list Endpoint.t) :
  (forall e, In e endpoints ->
     throwable TypeError \/ exists ts, Endpoint.tags e = JArr ts) ->
  forall set, settles throwable (collectTags endpoints set).
Proof.
  induction endpoints as [|e rest IH]; simpl; intros H set; [exact I|].
  apply bind_settles; [|intros ts _; apply IH; auto].
  destruct (H e (or_introl eq_refl)) as [Ht|[ts ->]]; [|exact I].
  destruct (Endpoint.tags e); simpl; auto.
Qed.

(** An endpoint built from an operation of the declared shape has a list of tags. *)
Lemma built_tags (entry : string * JValue) (m : HttpMethod) (e : Endpoint.t) :
  built_for entry m e -> operation_shape (prop (snd entry) (method_name m)) ->
  exists ts, Endpoint.tags e = JArr ts.
Proof.
  intros [pp Hop] (_ & _ & _ & _ & _ & Htags).
  apply parseOperation_Ret in Hop as (_ & _ & _ & ->).
  destruct Htags as [->|(ts & -> & _)]; simpl; eexists; reflexivity.
Qed.

Lemma endpoints_tags (entries : list (string * JValue)) (es : list Endpoint.t) :
  (forall k v, In (k, v) entries -> path_item_shape v) ->
  flatMapM pathEndpoints entries = Ret es ->
  forall e, In e es -> exists ts, Endpoint.tags e = JArr ts.
Proof.
  intros Hshape H e Hin. apply endpoints_Ret in H as (ess & HF & ->).
  apply in_concat in Hin as (es & Hes & Hin).
  destruct (Forall2_In_r _ _ _ _ HF Hes) as ([path pathItem] & Hentry & Hbuilt).
  destruct (Forall2_In_r _ _ _ _ Hbuilt Hin) as (m & Hm & Hb).
  apply filter_In in Hm as [_ Hm]. apply (built_tags _ _ _ Hb). simpl in *.
  destruct (Hshape _ _ Hentry) as (_ & _ & Hops).
  destruct (Hops m) as [E|Hop]; [|exact Hop].
  unfold bears_operation in Hm. rewrite E in Hm. discriminate.
Qed.

(** Past the dialect gate. *)
Lemma normalize_settles throwable (spec : JValue) :
  throwable TypeError \/ document_shape spec ->
  passes_gate spec = true ->
  settles throwable (normalize spec).
Proof.
  intros H Hgate. unfold normalize. apply bind_settles.
  { apply get_settles. destruct H as [H|(H & _)]; [now left|right].
    now apply object_not_nullish. }
  intros openapi Hopenapi.
  assert (E : negb (truthy openapi) && negb (truthy (prop spec "swagger")) = false).
  { unfold get in Hopenapi. destruct (is_nullish spec); [discriminate|].
    injection Hopenapi as <-. unfold passes_gate in Hgate.
    rewrite <- negb_orb, Hgate. reflexivity. }
  rewrite E. fold (path_entries spec). apply bind_settles.
  { apply flatMapM_settles. intros [path pathItem] Hin. apply pathEndpoints_settles.
    destruct H as [H|(_ & _ & H & _)]; [now left|right]. simpl.
    eapply record_entries_or_empty; eauto. }
  intros endpoints Hendpoints. apply bind_settles.
  { apply mapM_settles. intros [name schema] Hin. cbn [fst snd].
    apply parseSchema_settles.
    destruct H as [H|(_ & _ & _ & [E'|(_ & H & _)])]; [now left| |right].
    - rewrite E' in Hin. simpl in Hin. contradiction.
    - simpl. eapply record_entries_or_empty; eauto. }
  intros schemas _. apply bind_settles.
  { apply mapM_settles. intros [name scheme] Hin. apply parseSecurityScheme_settles.
    destruct H as [H|(_ & _ & _ & [E'|(_ & _ & H)])]; [now left| |right].
    - rewrite E' in Hin. simpl in Hin. contradiction.
    - simpl. eapply record_entries_or_empty; eauto. }
  intros securitySchemes _. apply bind_settles.
  { apply get_settles. destruct H as [H|(_ & H & _)]; [now left|right].
    now apply object_not_nullish. }
  intros title _. apply bind_settles; [|intros tags _; exact I].
  destruct (truthy (prop spec "tags")); [exact I|].
  unfold extractTags. apply bind_settles; [|intros tagSet _; exact I].
  apply collectTags_settles. intros e Hin.
  destruct H as [H|(_ & _ & H & _)]; [now left|right].
  eapply endpoints_tags; [|exact Hendpoints|exact Hin].
  intros k v Hkv. eapply record_entries_or_empty; eauto.
Qed.

(** Normalization ends on every document, and the exceptions it can end
    with are the gate's error and the runtime's [TypeError]. *)
Lemma normalize_exceptions (spec : JValue) :
  settles (fun e => e = TypeError \/ e = Error missing_version) (normalize spec).
Proof.
  destruct (passes_gate spec) eqn:Hgate.
  - apply normalize_settles; [left; now left|assumption].
  - unfold normalize, get. destruct (is_nullish spec); simpl; [now left|].
    unfold passes_gate in Hgate. rewrite <- negb_orb, Hgate. simpl. now right.
Qed.

Ltac shape :=
  cbn;
  lazymatch goal with
  | |- absent_or _ _ => first [left; reflexivity | right; shape]
  | |- object _ => eexists; reflexivity
  | |- array_of _ _ => eexists; split; [reflexivity|shape]
  | |- record_of _ _ => eexists; split; [reflexivity|shape]
  | |- Forall _ [] => constructor
  | |- Forall _ (_ :: _) => constructor; shape
  | |- schema_shape _ => constructor; shape
  | |- carries_schema _ => split; shape
  | |- carries_content _ => split; shape
  | |- operation_shape _ => unfold operation_shape; shape
  | |- path_item_shape _ => unfold path_item_shape; shape
  | |- components_shape _ => unfold components_shape; shape
  | |- document_shape _ => unfold document_shape; shape
  | |- _ /\ _ => split; shape
  | |- forall m : HttpMethod, _ => let m := fresh in intros m; destruct m; shape
  | |- anything _ => exact I
  end.

(** C5, as the code has it. Past the dialect gate an absent optional
    field is no error: a document that has an [info] block and whose fields,
    where present, have the shapes the parser's interfaces declare,
    normalizes to an ApiSpec, whichever of the other fields are absent; with
    nothing but a version and an info block it normalizes to the model
    without endpoints, schemas, tags and security schemes. *)
Theorem absent_fields_defaulted (spec : JValue) :
  document_shape spec -> passes_gate spec = true ->
  (exists api, normalize spec = Ret api) /\
  (forall info, prop spec "info" = JObj info ->
     has_key "paths" spec = false -> has_key "components" spec = false ->
     has_key "tags" spec = false -> has_key "servers" spec = false ->
     normalize spec
     = Ret {| ApiSpec.title := prop (JObj info) "title";
              ApiSpec.version := prop (JObj info) "version";
              ApiSpec.description := prop (JObj info) "description";
              ApiSpec.servers := JUndefined;
              ApiSpec.endpoints := [];
              ApiSpec.schemas := [];
              ApiSpec.tags := JArr [];
              ApiSpec.securitySchemes := [] |}).
Proof.
  intros Hshape Hgate. split.
  - apply settles_returns. apply normalize_settles; [now right|assumption].
  - intros info Hinfo Hpaths Hcomponents Htags Hservers.
    apply prop_absent in Hpaths, Hcomponents, Htags, Hservers.
    unfold normalize, get. destruct Hshape as ([fs ->] & _).
    cbn [is_nullish bind]. unfold passes_gate in Hgate.
    rewrite <- negb_orb, Hgate. cbn [negb].
    rewrite Hpaths, Hcomponents, Htags, Hservers, Hinfo. reflexivity.
Qed.

Lemma absent_fields_defaulted_witness :
  document_shape pets_document /\
  passes_gate pets_document = true /\
  exists api, normalize pets_document = Ret api.
Proof.
  assert (Hshape : document_shape pets_document) by (unfold pets_document; shape).
  split; [exact Hshape|]. split; [reflexivity|].
  exact (proj1 (absent_fields_defaulted pets_document Hshape eq_refl)).
Defined.

(** C5 as stated fails: a document with an [openapi] root key and no
    [info] block passes the gate and ends in a [TypeError], at the read of
    its title. *)
Lemma missing_info_throws :
  passes_gate no_info = true /\
  has_key "info" no_info = false /\
  normalize no_info = Throw TypeError.
Proof. split; [reflexivity|]. split; reflexivity. Qed.

(** ** The loader and the gate *)

Lemma gate_closed (spec : JValue) :
  is_nullish spec = false -> passes_gate spec = false ->
  normalize spec = Throw (Error missing_version).
Proof.
  intros Hn Hgate. unfold normalize, get. rewrite Hn. cbn [bind].
  unfold passes_gate in Hgate. rewrite <- negb_orb, Hgate. reflexivity.
Qed.

(** C6, as the code has it. A parsed document whose root is not [null]
    or [undefined] and has neither an [openapi] nor a [swagger] key makes
    [parseOpenApiSpec] fail with the error that reports the missing
    version, and so does one whose two keys are both falsy; no ApiSpec is
    produced. A root that is [null] or [undefined] ends in a [TypeError],
    at the read of [openapi]. With a truthy value under one of the keys the
    version error is not raised. *)
Theorem dialect_gate (JSON_parse yaml_load : string -> option JValue)
    (input spec : JValue) :
  loadDocument JSON_parse yaml_load input = Ret spec ->
  (is_nullish spec = false ->
   has_key "openapi" spec = false -> has_key "swagger" spec = false ->
   parseOpenApiSpec JSON_parse yaml_load input = Throw (Error missing_version)) /\
  (is_nullish spec = false -> passes_gate spec = false ->
   parseOpenApiSpec JSON_parse yaml_load input = Throw (Error missing_version)) /\
  (is_nullish spec = true ->
   parseOpenApiSpec JSON_parse yaml_load input = Throw TypeError) /\
  (truthy (prop spec "openapi") = true \/ truthy (prop spec "swagger") = true ->
   settles type_error (parseOpenApiSpec JSON_parse yaml_load input)).
Proof.
  intros Hload. unfold parseOpenApiSpec. rewrite Hload. cbn [bind].
  split; [|split; [|split]].
  - intros Hn Ho Hs. apply (gate_closed spec Hn). unfold passes_gate.
    now rewrite (prop_absent _ _ Ho), (prop_absent _ _ Hs).
  - exact (gate_closed spec).
  - intros Hn. unfold normalize, get. now rewrite Hn.
  - intros Hkey. apply normalize_settles; [now left|].
    unfold passes_gate. destruct Hkey as [-> | ->]; auto using orb_true_r.
Qed.

Lemma dialect_gate_witness :
  parseOpenApiSpec (fun _ => None) (fun _ => Some (JObj [("info", JObj [])]))
                   (JStr "info: {}")
  = Throw (Error missing_version).
Proof.
  refine (proj1 (dialect_gate (fun _ => None) (fun _ => Some (JObj [("info", JObj [])]))
                              (JStr "info: {}") (JObj [("info", JObj [])])
                              eq_refl) eq_refl eq_refl eq_refl).
Defined.

(** C6 as stated fails: the text [null] parses to a document that has
    neither key, and the run ends in a [TypeError], not in the version
    error. *)
Lemma null_document_throws :
  has_key "openapi" JNull = false /\
  has_key "swagger" JNull = false /\
  parseOpenApiSpec (fun _ => Some JNull) (fun _ => None) (JStr "null") = Throw TypeError.
Proof. split; [reflexivity|]. split; reflexivity. Qed.

(** Anything but a string is the document itself. *)
Lemma loadDocument_object (JSON_parse yaml_load : string -> option JValue) (input : JValue) :
  (forall text, input <> JStr text) -> loadDocument JSON_parse yaml_load input = Ret input.
Proof.
  intros H. destruct input; try reflexivity. now destruct (H s).
Qed.

(** C10, as the code has it. An input that is not a string is taken as
    the document: neither parser is consulted, so the parse error cannot
    arise; the dialect gate applies to it; and the result is the result for
    any text that [JSON.parse] maps to that very object. *)
Theorem object_input (JSON_parse yaml_load : string -> option JValue) (input : JValue) :
  (forall text, input <> JStr text) ->
  parseOpenApiSpec JSON_parse yaml_load input = normalize input /\
  settles (fun e => e = TypeError \/ e = Error missing_version)
          (parseOpenApiSpec JSON_parse yaml_load input) /\
  (is_nullish input = false -> passes_gate input = false ->
   parseOpenApiSpec JSON_parse yaml_load input = Throw (Error missing_version)) /\
  (forall text, JSON_parse text = Some input ->
   parseOpenApiSpec JSON_parse yaml_load (JStr text)
   = parseOpenApiSpec JSON_parse yaml_load input).
Proof.
  intros Hobj. pose proof (loadDocument_object JSON_parse yaml_load input Hobj) as Hload.
  assert (E : parseOpenApiSpec JSON_parse yaml_load input = normalize input).
  { unfold parseOpenApiSpec. now rewrite Hload. }
  split; [exact E|]. split; [|split].
  - rewrite E. apply normalize_exceptions.
  - intros Hn Hgate. rewrite E. now apply gate_closed.
  - intros text Hparse. rewrite E. unfold parseOpenApiSpec, loadDocument.
    now rewrite Hparse.
Qed.

Lemma object_input_witness :
  parseOpenApiSpec (fun _ => Some pets_document) (fun _ => None) (JStr "{}")
  = parseOpenApiSpec (fun _ => Some pets_document) (fun _ => None) pets_document.
Proof.
  refine (proj2 (proj2 (proj2 (object_input (fun _ => Some pets_document) (fun _ => None)
                                            pets_document _))) "{}" eq_refl).
  intros text. discriminate.
Defined.

(** C10 as stated fails: the object whose parameter example is [NaN]
    normalizes with that example, and a text that [JSON.parse] maps to its
    JSON clone, as its serialization is, normalizes with the example
    [null]. *)
Lemma object_input_not_its_serialization :
  exists direct serialized,
    (forall (JSON_parse yaml_load : string -> option JValue) (text : string),
        JSON_parse text = Some (JSON_clone nan_example) ->
        parseOpenApiSpec JSON_parse yaml_load nan_example = Ret direct /\
        parseOpenApiSpec JSON_parse yaml_load (JStr text) = Ret serialized) /\
    parameter_examples direct = [JNum NaN] :: nil /\
    parameter_examples serialized = [JNull] :: nil.
Proof.
  do 2 eexists. split; [|split].
  - intros JSON_parse yaml_load text Hparse.
    unfold parseOpenApiSpec, loadDocument. rewrite Hparse. split; reflexivity.
  - reflexivity.
  - reflexivity.
Qed.

(** * Further properties of [openApiParser.ts] *)

(** ** The conversion against its own equation *)

Lemma mapM_Forall2 {A B : Type} (f : A -> Outcome B) (xs : list A) (ys : list B) :
  mapM f xs = Ret ys -> Forall2 (fun x y => f x = Ret y) xs ys.
Proof.
  revert ys. induction xs as [|x xs IH]; simpl; intros ys H.
  - injection H as <-. constructor.
  - apply bind_Ret in H as (y & Hy & H). apply bind_Ret in H as (ys' & Hys & H).
    injection H as <-. constructor; auto.
Qed.

(** On a truthy node the conversion unfolds to the body of the source
    function, with the conversion itself at every recursive call. *)
Lemma parseSchemaRef_equation (schema : JValue) :
  truthy schema = true ->
  parseSchemaRef schema
  = (items <- convertItems parseSchemaRef (prop schema "items") ;;
     properties <- convertProperties parseSchemaRef (prop schema "properties") ;;
     oneOf <- optional_map parseSchemaRef (prop schema "oneOf") ;;
     anyOf <- optional_map parseSchemaRef (prop schema "anyOf") ;;
     allOf <- optional_map parseSchemaRef (prop schema "allOf") ;;
     Ret {| SchemaRef.type := prop schema "type";
            SchemaRef.ref := prop schema "$ref";
            SchemaRef.format := prop schema "format";
            SchemaRef.description := prop schema "description";
            SchemaRef.enum := prop schema "enum";
            SchemaRef.items := items;
            SchemaRef.properties := properties;
            SchemaRef.required := prop schema "required";
            SchemaRef.example := prop schema "example";
            SchemaRef.nullable := prop schema "nullable";
            SchemaRef.oneOf := oneOf;
            SchemaRef.anyOf := anyOf;
            SchemaRef.allOf := allOf |}).
Proof.
  intros Ht. unfold parseSchemaRef at 1. simpl. rewrite Ht. simpl.
  assert (Hd : depth schema < S (depth schema)) by lia.
  rewrite (convertItems_ext (parseSchemaRef_rec (depth schema)) parseSchemaRef).
  2:{ intros Hi. apply parseSchemaRef_rec_enough. now apply child_items. }
  rewrite (convertProperties_ext (parseSchemaRef_rec (depth schema)) parseSchemaRef).
  2:{ intros k v Hin. apply parseSchemaRef_rec_enough.
      now apply child_property with (schema := schema) (k := k). }
  rewrite (optional_map_ext (parseSchemaRef_rec (depth schema)) parseSchemaRef
                            (prop schema "oneOf")).
  2:{ intros xs x Hk Hin. apply parseSchemaRef_rec_enough. eapply child_member; eauto. }
  rewrite (optional_map_ext (parseSchemaRef_rec (depth schema)) parseSchemaRef
                            (prop schema "anyOf")).
  2:{ intros xs x Hk Hin. apply parseSchemaRef_rec_enough. eapply child_member; eauto. }
  rewrite (optional_map_ext (parseSchemaRef_rec (depth schema)) parseSchemaRef
                            (prop schema "allOf")).
  2:{ intros xs x Hk Hin. apply parseSchemaRef_rec_enough. eapply child_member; eauto. }
  reflexivity.
Qed.

(** What a conversion that returned has gone through. *)
Lemma parseSchemaRef_parts (schema : JValue) (sr : SchemaRef.t) :
  truthy schema = true -> parseSchemaRef schema = Ret sr ->
  convertItems parseSchemaRef (prop schema "items") = Ret (SchemaRef.items sr) /\
  convertProperties parseSchemaRef (prop schema "properties") = Ret (SchemaRef.properties sr) /\
  optional_map parseSchemaRef (prop schema "oneOf") = Ret (SchemaRef.oneOf sr) /\
  optional_map parseSchemaRef (prop schema "anyOf") = Ret (SchemaRef.anyOf sr) /\
  optional_map parseSchemaRef (prop schema "allOf") = Ret (SchemaRef.allOf sr).
Proof.
  intros Ht H. rewrite (parseSchemaRef_equation schema Ht) in H.
  apply bind_Ret in H as (items & Hitems & H).
  apply bind_Ret in H as (properties & Hprops & H).
  apply bind_Ret in H as (oneOf & HoneOf & H).
  apply bind_Ret in H as (anyOf & HanyOf & H).
  apply bind_Ret in H as (allOf & HallOf & H).
  injection H as <-. simpl. auto.
Qed.

Lemma define_fresh {A : Type} (o : list (string * A)) (k : string) (v : A) :
  ~ In k (map fst o) -> define o k v = o ++ [(k, v)].
Proof.
  induction o as [|[k' v'] o IH]; simpl; intros Hnotin; [reflexivity|].
  destruct (String.eqb_spec k k') as [->|Hne]; [tauto|].
  rewrite IH; [reflexivity|tauto].
Qed.

(** With pairwise distinct keys [Object.fromEntries] keeps the entries as they come. *)
Lemma fromEntries_distinct {A : Type} (es : list (string * A)) :
  NoDup (map fst es) -> Object_fromEntries es = es.
Proof.
  unfold Object_fromEntries. intros Hnd.
  assert (G : forall acc, NoDup (map fst (acc ++ es)) ->
                          fold_left (fun o kv => define o (fst kv) (snd kv)) es acc = acc ++ es).
  { clear Hnd.
    induction es as [|[k v] es IH]; simpl; intros acc Hacc; [now rewrite app_nil_r|].
    rewrite define_fresh.
    - rewrite IH; rewrite <- app_assoc; [reflexivity|exact Hacc].
    - rewrite map_app in Hacc. simpl in Hacc. apply NoDup_remove_2 in Hacc.
      intros Hin. apply Hacc. apply in_or_app. now left. }
  apply (G []). exact Hnd.
Qed.

Lemma Forall2_keys {A B : Type} (R : A -> B -> Prop) (xs : list (string * A))
    (ys : list (string * B)) :
  Forall2 (fun x y => fst y = fst x /\ R (snd x) (snd y)) xs ys ->
  map fst ys = map fst xs.
Proof. induction 1 as [|x y xs ys [E _] _ IH]; simpl; congruence. Qed.

(** X2. The conversion keeps the properties of an object node: with
    pairwise distinct keys the converted properties have the keys of the
    source, in the same order, and each is the conversion of the source
    property under its key. *)
Theorem properties_preserved (schema : JValue) (sr : SchemaRef.t)
    (ps : list (string * JValue)) :
  parseSchemaRef schema = Ret sr ->
  prop schema "properties" = JObj ps ->
  NoDup (map fst ps) ->
  exists converted,
    SchemaRef.properties sr = Some converted /\
    map fst converted = map fst ps /\
    Forall2 (fun source result =>
               fst result = fst source /\ parseSchemaRef (snd source) = Ret (snd result))
            ps converted.
Proof.
  intros H Hps Hnd.
  assert (Ht : truthy schema = true).
  { destruct schema; simpl in Hps; try discriminate. reflexivity. }
  destruct (parseSchemaRef_parts schema sr Ht H) as (_ & Hprops & _).
  rewrite Hps in Hprops. unfold convertProperties in Hprops. simpl in Hprops.
  apply bind_Ret in Hprops as (es & Hes & Hprops). injection Hprops as Hprops.
  apply mapM_Forall2 in Hes.
  assert (HF : Forall2 (fun source result =>
                 fst result = fst source /\ parseSchemaRef (snd source) = Ret (snd result))
                 ps es).
  { clear -Hes. induction Hes as [|[k v] [k' r] ps es Hx _ IH]; constructor; auto.
    simpl in *. apply bind_Ret in Hx as (r' & Hr & Hx). injection Hx as <- <-. auto. }
  pose proof (Forall2_keys (fun v r => parseSchemaRef v = Ret r) _ _ HF) as Hkeys.
  exists es. rewrite <- Hprops. rewrite fromEntries_distinct by now rewrite Hkeys.
  auto.
Qed.

Lemma properties_preserved_witness :
  exists sr converted,
    parseSchemaRef self_referential = Ret sr /\
    SchemaRef.properties sr = Some converted /\
    map fst converted = ["value"; "next"].
Proof.
  assert (Hnd : NoDup (map (@fst string JValue)
                  [("value", JObj [("type", JStr "string")]);
                   ("next", JObj [("$ref", JStr "#/components/schemas/Node")])])).
  { simpl. repeat constructor; simpl; intuition discriminate. }
  destruct (properties_preserved self_referential _ _ eq_refl eq_refl Hnd)
    as (converted & Hprops & Hkeys & _).
  do 2 eexists. split; [reflexivity|]. split; [exact Hprops|exact Hkeys].
Defined.

Lemma optional_map_array {B : Type} (f : JValue -> Outcome B) (xs : list JValue)
    (r : option (list B)) :
  optional_map f (JArr xs) = Ret r ->
  exists ys, r = Some ys /\ Forall2 (fun x y => f x = Ret y) xs ys.
Proof.
  unfold optional_map. simpl. intros H. apply bind_Ret in H as (ys & Hys & H).
  injection H as <-. exists ys. split; [reflexivity|]. now apply mapM_Forall2.
Qed.

(** X3. The members of [oneOf], [anyOf] and [allOf] are converted one by
    one, in order: a list in the source gives a list of the same length in
    the SchemaRef, each member the conversion of the source member. *)
Theorem compositions_preserved (schema : JValue) (sr : SchemaRef.t) :
  truthy schema = true ->
  parseSchemaRef schema = Ret sr ->
  (forall xs, prop schema "oneOf" = JArr xs ->
     exists ys, SchemaRef.oneOf sr = Some ys /\
                Forall2 (fun x y => parseSchemaRef x = Ret y) xs ys) /\
  (forall xs, prop schema "anyOf" = JArr xs ->
     exists ys, SchemaRef.anyOf sr = Some ys /\
                Forall2 (fun x y => parseSchemaRef x = Ret y) xs ys) /\
  (forall xs, prop schema "allOf" = JArr xs ->
     exists ys, SchemaRef.allOf sr = Some ys /\
                Forall2 (fun x y => parseSchemaRef x = Ret y) xs ys).
Proof.
  intros Ht H.
  destruct (parseSchemaRef_parts schema sr Ht H) as (_ & _ & H1 & H2 & H3).
  repeat split; intros xs Hxs;
    [rewrite Hxs in H1|rewrite Hxs in H2|rewrite Hxs in H3];
    eapply optional_map_array; eassumption.
Qed.

Lemma compositions_preserved_witness :
  exists sr ys,
    parseSchemaRef (JObj [("oneOf", JArr [JObj [("type", JStr "string")]; JNull])]) = Ret sr /\
    SchemaRef.oneOf sr = Some ys /\ List.length ys = 2.
Proof.
  destruct (compositions_preserved
              (JObj [("oneOf", JArr [JObj [("type", JStr "string")]; JNull])]) _
              eq_refl eq_refl) as (H & _ & _).
  destruct (H _ eq_refl) as (ys & Hys & HF).
  do 2 eexists. split; [reflexivity|]. split; [exact Hys|].
  now rewrite <- (Forall2_length HF).
Defined.

Lemma optional_map_not_array {B : Type} (f : JValue -> Outcome B) (v : JValue)
    (r : option (list B)) :
  is_nullish v = false -> (forall xs, v <> JArr xs) -> optional_map f v = Ret r -> False.
Proof.
  unfold optional_map. intros Hn Harr. rewrite Hn.
  destruct v; simpl; try discriminate. now destruct (Harr xs).
Qed.

(** X4. The conversion does fail on a malformed composition: a truthy
    node whose [oneOf], [anyOf] or [allOf] is present and not a list makes it
    throw a [TypeError], the call of a [map] that is no function. *)
Theorem composition_not_a_list_throws (schema : JValue) (k : string) :
  truthy schema = true ->
  k = "oneOf" \/ k = "anyOf" \/ k = "allOf" ->
  is_nullish (prop schema k) = false ->
  (forall xs, prop schema k <> JArr xs) ->
  parseSchemaRef schema = Throw TypeError.
Proof.
  intros Ht Hk Hn Harr.
  pose proof (parseSchemaRef_settles type_error schema (or_introl eq_refl)) as Hs.
  destruct (parseSchemaRef schema) as [sr|e|] eqn:E; simpl in Hs.
  - exfalso. destruct (parseSchemaRef_parts schema sr Ht E) as (_ & _ & H1 & H2 & H3).
    destruct Hk as [-> | [-> | ->]]; eapply optional_map_not_array; eauto.
  - now rewrite Hs.
  - contradiction.
Qed.

Lemma composition_not_a_list_throws_witness :
  parseSchemaRef (JObj [("type", JStr "object"); ("allOf", JObj [])]) = Throw TypeError.
Proof.
  apply (composition_not_a_list_throws
           (JObj [("type", JStr "object"); ("allOf", JObj [])]) "allOf" eq_refl).
  - right. right. reflexivity.
  - reflexivity.
  - intros xs. discriminate.
Defined.

(** X5. On a node of the shape [OpenAPISchema] declares, and on an
    absent node, the conversion returns a SchemaRef: it throws nothing. *)
Theorem well_shaped_schema_converts (schema : JValue) :
  absent_or schema_shape schema -> exists sr, parseSchemaRef schema = Ret sr.
Proof.
  intros H. apply settles_returns. apply parseSchemaRef_settles. now right.
Qed.

Lemma well_shaped_schema_converts_witness :
  exists sr, parseSchemaRef self_referential = Ret sr.
Proof.
  apply well_shaped_schema_converts. right. unfold self_referential. shape.
Defined.

(** ** Parameters, bodies and responses *)

Lemma parseParameter_Ret (param : JValue) (p : Param.t) :
  parseParameter param = Ret p ->
  is_nullish param = false /\
  Param.name p = prop param "name" /\
  Param.in_ p = prop param "in" /\
  parseSchemaRef (prop param "schema") = Ret (Param.schema p).
Proof.
  unfold parseParameter, get. intros H.
  destruct (is_nullish param); [discriminate|]. simpl in H.
  apply bind_Ret in H as (schema & Hschema & H). injection H as <-. simpl. auto.
Qed.

(** X6. A parameter without a schema (or with a falsy one) is given the
    schema [{ type: 'object' }]. *)
Theorem parameter_without_schema (param : JValue) (p : Param.t) :
  parseParameter param = Ret p ->
  truthy (prop param "schema") = false ->
  Param.schema p = object_schema.
Proof.
  intros H Hs. apply parseParameter_Ret in H as (_ & _ & _ & H).
  unfold parseSchemaRef in H. simpl in H. rewrite Hs in H. simpl in H.
  now injection H.
Qed.

Lemma parameter_without_schema_witness :
  exists p, parseParameter optional_path_parameter = Ret p /\
            Param.schema p = object_schema.
Proof.
  eexists. split; [reflexivity|].
  exact (parameter_without_schema optional_path_parameter _ eq_refl eq_refl).
Defined.

(** The endpoint of an operation, with the path-level parameters it was built with. *)
Lemma pathEndpoints_built (path : string) (pathItem : JValue) (es : list Endpoint.t) :
  pathEndpoints (path, pathItem) = Ret es ->
  Forall2 (fun m e =>
             parseOperation path (or_else (prop pathItem "parameters") (JArr [])) m
                            (prop pathItem (method_name m)) = Ret e)
          (filter (bears_operation pathItem) methods) es.
Proof.
  unfold pathEndpoints, get. intros H.
  destruct (is_nullish pathItem); [discriminate|]. cbn [bind] in H.
  apply flatMapM_Ret in H as (yss & HF & ->).
  induction HF as [|m ys ms yss Hm _ IH]; simpl; [constructor|].
  unfold bears_operation at 1.
  destruct (truthy (prop pathItem (method_name m))); simpl in Hm.
  - apply bind_Ret in Hm as (e & He & Hm). injection Hm as <-. simpl.
    constructor; [exact He|exact IH].
  - injection Hm as <-. exact IH.
Qed.

Lemma endpoint_source (spec : JValue) (api : ApiSpec.t) (e : Endpoint.t) :
  normalize spec = Ret api -> In e (ApiSpec.endpoints api) ->
  exists pathItem,
    In (Endpoint.path e, pathItem) (path_entries spec) /\
    parseOperation (Endpoint.path e) (or_else (prop pathItem "parameters") (JArr []))
                   (Endpoint.method e)
                   (prop pathItem (method_name (Endpoint.method e))) = Ret e.
Proof.
  intros H Hin. apply normalize_Ret in H as (_ & H & _).
  apply flatMapM_Ret in H as (ess & HF & Hes). rewrite Hes in Hin.
  apply in_concat in Hin as (es & Hes' & Hin).
  destruct (Forall2_In_r _ _ _ _ HF Hes') as ([path pathItem] & Hentry & Hbuilt).
  apply pathEndpoints_built in Hbuilt.
  destruct (Forall2_In_r _ _ _ _ Hbuilt Hin) as (m & _ & Hop).
  pose proof (parseOperation_Ret _ _ _ _ _ Hop) as (_ & Hpath & Hmethod & _).
  subst path m. exists pathItem. auto.
Qed.

Lemma parseOperation_parts (path : string) (pathParams : JValue) (m : HttpMethod)
    (operation : JValue) (e : Endpoint.t) :
  parseOperation path pathParams m operation = Ret e ->
  (exists shared own,
      spread pathParams = Ret shared /\
      spread (or_else (prop operation "parameters") (JArr [])) = Ret own /\
      mapM parseParameter (shared ++ own) = Ret (Endpoint.parameters e)) /\
  parseRequestBody (prop operation "requestBody") = Ret (Endpoint.requestBody e) /\
  parseResponses (prop operation "responses") = Ret (Endpoint.responses e) /\
  optional_map first_key (prop operation "security") = Ret (Endpoint.security e).
Proof.
  unfold parseOperation. intros H.
  apply bind_Ret in H as (shared & Hshared & H). apply bind_Ret in H as (own & Hown & H).
  apply bind_Ret in H as (parameters & Hparams & H).
  apply bind_Ret in H as (requestBody & Hbody & H).
  apply bind_Ret in H as (responses & Hresponses & H).
  apply bind_Ret in H as (security & Hsecurity & H).
  injection H as <-. simpl. split; [exists shared, own|]; auto.
Qed.

(** X7. An endpoint's parameters are the parameters of its path item
    followed by the parameters of its operation, each converted, in order:
    none is dropped and none is merged, also when both lists name the same
    parameter. *)
Theorem parameters_concatenated (spec : JValue) (api : ApiSpec.t) (e : Endpoint.t) :
  normalize spec = Ret api -> In e (ApiSpec.endpoints api) ->
  exists pathItem shared own,
    In (Endpoint.path e, pathItem) (path_entries spec) /\
    spread (or_else (prop pathItem "parameters") (JArr [])) = Ret shared /\
    spread (or_else (prop (prop pathItem (method_name (Endpoint.method e))) "parameters")
                    (JArr [])) = Ret own /\
    Forall2 (fun source p => parseParameter source = Ret p)
            (shared ++ own) (Endpoint.parameters e) /\
    List.length (Endpoint.parameters e) = List.length shared + List.length own /\
    map Param.name (Endpoint.parameters e) = map (fun source => prop source "name")
                                                 (shared ++ own).
Proof.
  intros H Hin. destruct (endpoint_source _ _ _ H Hin) as (pathItem & Hentry & Hop).
  apply parseOperation_parts in Hop as ((shared & own & Hshared & Hown & Hparams) & _).
  apply mapM_Forall2 in Hparams.
  exists pathItem, shared, own. repeat split; auto.
  - rewrite <- (Forall2_length Hparams). apply length_app.
  - clear -Hparams. induction Hparams as [|v p vs ps Hp _ IH]; simpl; [reflexivity|].
    apply parseParameter_Ret in Hp as (_ & -> & _). now rewrite IH.
Qed.

Lemma parameters_concatenated_witness :
  exists api e,
    normalize repeated_parameter = Ret api /\
    ApiSpec.endpoints api = [e] /\
    map Param.name (Endpoint.parameters e) = [JStr "id"; JStr "id"; JStr "q"].
Proof.
  do 2 eexists. split; [reflexivity|]. split; [reflexivity|].
  match goal with
  | |- map Param.name (Endpoint.parameters ?e) = _ =>
      destruct (parameters_concatenated repeated_parameter _ e eq_refl (or_introl eq_refl))
        as (pathItem & shared & own & _ & _ & _ & _ & _ & Hnames)
  end.
  reflexivity.
Defined.

Lemma parseResponse_Ret (entry : string * JValue) (r : Response.t) :
  parseResponse entry = Ret r ->
  Response.statusCode r = fst entry /\
  Response.description r = prop (snd entry) "description" /\
  Response.content r <> Some [].
Proof.
  destruct entry as [statusCode response]. simpl. intros H.
  apply bind_Ret in H as (declared & _ & H). apply bind_Ret in H as (content & _ & H).
  injection H as <-. simpl. repeat split; auto.
  destruct content; discriminate.
Qed.

(** X8. The responses of an endpoint are one per declared status code, in
    the order of the source, each under its status code and with its
    description; an operation without responses has none. *)
Theorem responses_preserved (responses : JValue) (rs : list Response.t) :
  parseResponses responses = Ret rs ->
  (truthy responses = false -> rs = []) /\
  (truthy responses = true ->
     map Response.statusCode rs = map fst (Object_entries responses) /\
     map Response.description rs
     = map (fun entry => prop (snd entry) "description") (Object_entries responses)).
Proof.
  unfold parseResponses. intros H. split; intros Ht; rewrite Ht in H; simpl in H.
  - now injection H.
  - apply mapM_Forall2 in H.
    induction H as [|entry r entries rs Hr _ [IH1 IH2]]; simpl; [auto|].
    apply parseResponse_Ret in Hr as (-> & -> & _). now rewrite IH1, IH2.
Qed.

Lemma responses_preserved_witness :
  exists rs,
    parseResponses (JObj [("200", JObj [("description", JStr "ok")]);
                          ("default", JObj [("description", JStr "error")])]) = Ret rs /\
    map Response.statusCode rs = ["200"; "default"].
Proof.
  eexists. split; [reflexivity|].
  exact (proj1 (proj2 (responses_preserved
                         (JObj [("200", JObj [("description", JStr "ok")]);
                                ("default", JObj [("description", JStr "error")])])
                         _ eq_refl) eq_refl)).
Defined.

(** X9. A response of the model never carries an empty media-type map:
    its content is absent or has an entry. *)
Theorem response_content_not_empty (responses : JValue) (rs : list Response.t) :
  parseResponses responses = Ret rs ->
  Forall (fun r => Response.content r = None \/
                   exists entry rest, Response.content r = Some (entry :: rest)) rs.
Proof.
  unfold parseResponses. intros H. destruct (truthy responses); simpl in H.
  - apply mapM_Forall2 in H. induction H as [|entry r entries rs Hr _ IH]; constructor; auto.
    apply parseResponse_Ret in Hr as (_ & _ & Hr).
    destruct (Response.content r) as [[|entry' rest]|]; [now destruct Hr|right; eauto|now left].
  - injection H as <-. constructor.
Qed.

Lemma response_content_not_empty_witness :
  exists rs,
    parseResponses (JObj [("204", JObj [("description", JStr "gone"); ("content", JObj [])])])
    = Ret rs /\
    map Response.content rs = [None].
Proof.
  eexists. split; [reflexivity|].
  pose proof (response_content_not_empty
                (JObj [("204", JObj [("description", JStr "gone"); ("content", JObj [])])])
                _ eq_refl) as H.
  reflexivity.
Defined.

Lemma assign_keys {A : Type} (o : list (string * A)) (k : string) (v : A) :
  ~ In k (map fst o) ->
  map fst (assign o k v) = map fst o ++ (if String.eqb k "__proto__" then [] else [k]).
Proof.
  intros Hnotin. unfold assign. destruct (String.eqb k "__proto__").
  - now rewrite app_nil_r.
  - rewrite define_fresh by assumption. now rewrite map_app.
Qed.

Lemma fillContent_keys (entries : list (string * JValue)) :
  forall content result,
    NoDup (map fst content ++ map fst entries) ->
    fillContent entries content = Ret result ->
    map fst result
    = map fst content
      ++ filter (fun k => negb (String.eqb k "__proto__")) (map fst entries).
Proof.
  induction entries as [|[mediaType mediaContent] rest IH]; simpl;
    intros content result Hnd H.
  - injection H as <-. now rewrite app_nil_r.
  - apply bind_Ret in H as (schema & _ & H). apply bind_Ret in H as (converted & _ & H).
    assert (Hfresh : ~ In mediaType (map fst content)).
    { apply NoDup_remove_2 in Hnd. intros Hin. apply Hnd, in_or_app. now left. }
    apply IH in H.
    + rewrite H, assign_keys by assumption.
      rewrite <- app_assoc. destruct (String.eqb mediaType "__proto__"); reflexivity.
    + rewrite assign_keys by assumption.
      destruct (String.eqb mediaType "__proto__").
      * rewrite app_nil_r. now apply NoDup_remove_1 in Hnd.
      * rewrite <- app_assoc. exact Hnd.
Qed.

(** X10. The media types of a request body or a response are kept in
    order, each once, but for a media type spelled [__proto__], which the
    assignment [content[mediaType] = ...] does not store as a key. *)
Theorem media_types_preserved (declared : JValue) (content : list (string * MediaType.t)) :
  parseContent declared = Ret content ->
  NoDup (map fst (Object_entries (or_else declared (JObj [])))) ->
  map fst content
  = filter (fun k => negb (String.eqb k "__proto__"))
           (map fst (Object_entries (or_else declared (JObj [])))).
Proof.
  unfold parseContent. intros H Hnd.
  apply (fillContent_keys _ [] content) in H; [exact H|exact Hnd].
Qed.

Lemma media_types_preserved_witness :
  exists content,
    parseContent (JObj [("application/json", JObj []); ("__proto__", JObj []);
                        ("text/plain", JObj [])]) = Ret content /\
    map fst content = ["application/json"; "text/plain"].
Proof.
  eexists. split; [reflexivity|].
  apply (media_types_preserved
           (JObj [("application/json", JObj []); ("__proto__", JObj []);
                  ("text/plain", JObj [])]) _ eq_refl).
  simpl. repeat constructor; simpl; intuition discriminate.
Defined.

(** X11. The security of an endpoint keeps, for each requirement of the
    operation, the name of its first scheme and nothing else: the scopes,
    and any further scheme of the same requirement, are dropped; an
    operation without a security list has none in the model. *)
Theorem security_names (spec : JValue) (api : ApiSpec.t) (e : Endpoint.t) :
  normalize spec = Ret api -> In e (ApiSpec.endpoints api) ->
  exists pathItem operation,
    In (Endpoint.path e, pathItem) (path_entries spec) /\
    operation = prop pathItem (method_name (Endpoint.method e)) /\
    (is_nullish (prop operation "security") = true -> Endpoint.security e = None) /\
    (forall requirements, prop operation "security" = JArr requirements ->
       exists names, Endpoint.security e = Some names /\
                     Forall2 (fun requirement name => first_key requirement = Ret name)
                             requirements names).
Proof.
  intros H Hin. destruct (endpoint_source _ _ _ H Hin) as (pathItem & Hentry & Hop).
  apply parseOperation_parts in Hop as (_ & _ & _ & Hsecurity).
  exists pathItem, (prop pathItem (method_name (Endpoint.method e))).
  repeat split; auto.
  - intros Hn. unfold optional_map in Hsecurity. rewrite Hn in Hsecurity.
    now injection Hsecurity.
  - intros requirements Hreq. rewrite Hreq in Hsecurity.
    now apply optional_map_array in Hsecurity.
Qed.

Lemma security_names_witness :
  exists api e,
    normalize two_requirements = Ret api /\
    ApiSpec.endpoints api = [e] /\
    Endpoint.security e = Some [JStr "oauth"; JUndefined].
Proof.
  do 2 eexists. split; [reflexivity|]. split; [reflexivity|].
  match goal with
  | |- Endpoint.security ?e = _ =>
      destruct (security_names two_requirements _ e eq_refl (or_introl eq_refl))
        as (pathItem & operation & _ & _ & _ & _)
  end.
  reflexivity.
Defined.

(** ** Schemas, security schemes and tags *)

Lemma normalize_components (spec : JValue) (api : ApiSpec.t) :
  normalize spec = Ret api ->
  mapM (fun entry => parseSchema (fst entry) (snd entry)) (schema_entries spec)
  = Ret (ApiSpec.schemas api) /\
  mapM parseSecurityScheme (security_scheme_entries spec)
  = Ret (ApiSpec.securitySchemes api) /\
  is_nullish (prop spec "info") = false /\
  ApiSpec.title api = prop (prop spec "info") "title" /\
  ApiSpec.version api = prop (prop spec "info") "version" /\
  ApiSpec.description api = prop (prop spec "info") "description" /\
  ApiSpec.servers api = prop spec "servers".
Proof.
  unfold normalize, schema_entries, security_scheme_entries. intros H.
  apply bind_Ret in H as (openapi & _ & H).
  destruct (negb (truthy openapi) && negb (truthy (prop spec "swagger")));
    [discriminate|].
  apply bind_Ret in H as (endpoints & _ & H).
  apply bind_Ret in H as (schemas & Hschemas & H).
  apply bind_Ret in H as (securitySchemes & Hschemes & H).
  apply bind_Ret in H as (title & Htitle & H).
  apply bind_Ret in H as (tags & _ & H).
  injection H as <-. simpl. unfold get in Htitle.
  destruct (is_nullish (prop spec "info")); [discriminate|].
  injection Htitle as <-. auto 10.
Qed.

Lemma parseSchema_Ret (name : string) (schema : JValue) (s : Schema.t) :
  parseSchema name schema = Ret s ->
  Schema.name s = name /\
  Schema.type s = or_else (prop schema "type") (JStr "object").
Proof.
  unfold parseSchema, get. intros H. destruct (is_nullish schema); [discriminate|].
  cbn [bind] in H.
  apply bind_Ret in H as (properties & _ & H). apply bind_Ret in H as (items & _ & H).
  injection H as <-. auto.
Qed.

(** X12. The model has one Schema for each named component schema of the
    document, under its name and in the order of the document; a document
    without components, or without schemas in them, has none. Each Schema
    has a type: the source's, or [object] when the source has none. *)
Theorem schemas_preserved (spec : JValue) (api : ApiSpec.t) :
  normalize spec = Ret api ->
  map Schema.name (ApiSpec.schemas api) = map fst (schema_entries spec) /\
  map Schema.type (ApiSpec.schemas api)
  = map (fun entry => or_else (prop (snd entry) "type") (JStr "object")) (schema_entries spec) /\
  Forall (fun s => truthy (Schema.type s) = true) (ApiSpec.schemas api) /\
  (has_key "components" spec = false -> ApiSpec.schemas api = []).
Proof.
  intros H. apply normalize_components in H as (H & _).
  apply mapM_Forall2 in H. split; [|split; [|split]].
  - induction H as [|[name schema] s es ss Hs _ IH]; simpl; [reflexivity|].
    apply parseSchema_Ret in Hs as (-> & _). now rewrite IH.
  - induction H as [|[name schema] s es ss Hs _ IH]; simpl; [reflexivity|].
    apply parseSchema_Ret in Hs as (_ & ->). now rewrite IH.
  - induction H as [|[name schema] s es ss Hs _ IH]; constructor; auto.
    apply parseSchema_Ret in Hs as (_ & ->). simpl. unfold or_else.
    destruct (truthy (prop schema "type")) eqn:E; [exact E|reflexivity].
  - intros Hk. unfold schema_entries in H. rewrite (prop_absent _ _ Hk) in H.
    simpl in H. now inversion H.
Qed.

Lemma schemas_preserved_witness :
  exists api,
    normalize (JObj [("openapi", JStr "3.0.0"); ("info", JObj []);
                     ("components", JObj [("schemas", JObj [
                        ("Pet", JObj [("properties", JObj [])]);
                        ("Tags", JObj [("type", JStr "array")])])])]) = Ret api /\
    map Schema.name (ApiSpec.schemas api) = ["Pet"; "Tags"] /\
    map Schema.type (ApiSpec.schemas api) = [JStr "object"; JStr "array"].
Proof.
  eexists. split; [reflexivity|].
  destruct (schemas_preserved
              (JObj [("openapi", JStr "3.0.0"); ("info", JObj []);
                     ("components", JObj [("schemas", JObj [
                        ("Pet", JObj [("properties", JObj [])]);
                        ("Tags", JObj [("type", JStr "array")])])])]) _ eq_refl)
    as (Hnames & Htypes & _).
  split; [exact Hnames|exact Htypes].
Defined.

Lemma parseSecurityScheme_Ret (entry : string * JValue) (s : SecurityScheme.t) :
  parseSecurityScheme entry = Ret s ->
  s = {| SecurityScheme.name := fst entry;
         SecurityScheme.type := prop (snd entry) "type";
         SecurityScheme.in_ := prop (snd entry) "in";
         SecurityScheme.scheme := prop (snd entry) "scheme";
         SecurityScheme.bearerFormat := prop (snd entry) "bearerFormat";
         SecurityScheme.description := prop (snd entry) "description" |}.
Proof.
  destruct entry as [name scheme]. unfold parseSecurityScheme, get.
  destruct (is_nullish scheme); [discriminate|]. cbn [bind]. intros H.
  now injection H as <-.
Qed.

(** X13. The security schemes of the model are the named security
    schemes of the document, one each and in order, their fields copied
    as they are. *)
Theorem security_schemes_preserved (spec : JValue) (api : ApiSpec.t) :
  normalize spec = Ret api ->
  ApiSpec.securitySchemes api
  = map (fun entry =>
           {| SecurityScheme.name := fst entry;
              SecurityScheme.type := prop (snd entry) "type";
              SecurityScheme.in_ := prop (snd entry) "in";
              SecurityScheme.scheme := prop (snd entry) "scheme";
              SecurityScheme.bearerFormat := prop (snd entry) "bearerFormat";
              SecurityScheme.description := prop (snd entry) "description" |})
        (security_scheme_entries spec).
Proof.
  intros H. apply normalize_components in H as (_ & H & _).
  apply mapM_Forall2 in H.
  induction H as [|entry s es ss Hs _ IH]; simpl; [reflexivity|].
  apply parseSecurityScheme_Ret in Hs. now rewrite Hs, IH.
Qed.

Lemma security_schemes_preserved_witness :
  exists api,
    normalize (JObj [("swagger", JStr "2.0"); ("info", JObj []);
                     ("components", JObj [("securitySchemes", JObj [
                        ("key", JObj [("type", JStr "apiKey"); ("in", JStr "header")])])])])
    = Ret api /\
    map SecurityScheme.name (ApiSpec.securitySchemes api) = ["key"].
Proof.
  eexists. split; [reflexivity|].
  rewrite (security_schemes_preserved
             (JObj [("swagger", JStr "2.0"); ("info", JObj []);
                    ("components", JObj [("securitySchemes", JObj [
                       ("key", JObj [("type", JStr "apiKey"); ("in", JStr "header")])])])])
             _ eq_refl).
  reflexivity.
Defined.

(** X14. The title, version and description of the model are those of
    the document's info block, and its servers are the document's, as they
    are: a document without servers has none in the model, and no default
    is put in their place. *)
Theorem info_copied (spec : JValue) (api : ApiSpec.t) :
  normalize spec = Ret api ->
  is_nullish (prop spec "info") = false /\
  ApiSpec.title api = prop (prop spec "info") "title" /\
  ApiSpec.version api = prop (prop spec "info") "version" /\
  ApiSpec.description api = prop (prop spec "info") "description" /\
  ApiSpec.servers api = prop spec "servers" /\
  (has_key "servers" spec = false -> ApiSpec.servers api = JUndefined).
Proof.
  intros H. apply normalize_components in H as (_ & _ & Hinfo & Ht & Hv & Hd & Hs).
  repeat split; auto. intros Hk. now rewrite Hs, (prop_absent _ _ Hk).
Qed.

Lemma info_copied_witness :
  exists api,
    normalize pets_document = Ret api /\
    ApiSpec.title api = JStr "T" /\ ApiSpec.servers api = JUndefined.
Proof.
  eexists. split; [reflexivity|].
  destruct (info_copied pets_document _ eq_refl) as (_ & Ht & _ & _ & _ & Hs).
  split; [exact Ht|exact (Hs eq_refl)].
Defined.

Lemma first_seen_subset (l : list JValue) (x : JValue) :
  In x (first_seen l) -> In x l.
Proof.
  induction l as [|y l IH]; simpl; [auto|].
  intros [->|Hin]; [now left|right]. apply filter_In in Hin as [Hin _]. auto.
Qed.

Lemma same_value_zero_string (s : string) (y : JValue) :
  same_value_zero (JStr s) y = true <-> y = JStr s.
Proof.
  destruct y; simpl; try (split; discriminate).
  rewrite String.eqb_eq. split; [intros ->; reflexivity|intros H; now injection H].
Qed.

Lemma first_seen_strings (l : list JValue) :
  Forall (fun t => exists s, t = JStr s) l ->
  NoDup (first_seen l) /\ forall x, In x l -> In x (first_seen l).
Proof.
  induction 1 as [|t l [s ->] _ [IHnd IHin]]; simpl; [split; [constructor|auto]|].
  split.
  - constructor.
    + intros Hin. apply filter_In in Hin as [_ Hne]. simpl in Hne.
      rewrite String.eqb_refl in Hne. discriminate.
    + now apply NoDup_filter.
  - intros x [<-|Hin]; [now left|].
    destruct (same_value_zero (JStr s) x) eqn:E.
    + apply same_value_zero_string in E. now left.
    + right. apply filter_In. split; [auto|].
      change (negb (same_value_zero (JStr s) x) = true). now rewrite E.
Qed.

(** X15. When the endpoints' tags are strings, the synthesized tag list
    names every tag that an endpoint references, each exactly once. *)
Theorem extracted_tags_distinct (endpoints : list Endpoint.t) (tags : JValue) :
  extractTags endpoints = Ret tags ->
  Forall (fun t => exists s, t = JStr s) (referenced_tags endpoints) ->
  exists names,
    tags = JArr (map tag_named names) /\
    NoDup names /\
    forall t, In t names <-> In t (referenced_tags endpoints).
Proof.
  intros H Hstr. apply extractTags_Ret in H.
  destruct (first_seen_strings _ Hstr) as [Hnd Hin].
  exists (first_seen (referenced_tags endpoints)).
  split; [exact H|]. split; [exact Hnd|].
  intros t. split; [apply first_seen_subset|apply Hin].
Qed.

Lemma extracted_tags_distinct_witness :
  exists names,
    extractTags tagged_endpoints = Ret (JArr (map tag_named names)) /\
    NoDup names /\
    In (JStr "store") names.
Proof.
  assert (Hstr : Forall (fun t => exists s, t = JStr s) (referenced_tags tagged_endpoints)).
  { simpl. repeat constructor; eexists; reflexivity. }
  destruct (extracted_tags_distinct tagged_endpoints _ eq_refl Hstr)
    as (names & Htags & Hnd & Hin).
  exists names. split; [now rewrite <- Htags|]. split; [exact Hnd|].
  apply Hin. simpl. tauto.
Defined.

(** ** The loader *)

(** The exceptions of the entry point. *)
Lemma parseOpenApiSpec_exceptions (JSON_parse yaml_load : string -> option JValue)
    (input : JValue) :
  settles (fun e => e = TypeError \/ e = Error missing_version \/ e = Error invalid_text)
          (parseOpenApiSpec JSON_parse yaml_load input).
Proof.
  assert (Hn : forall spec,
             settles (fun e => e = TypeError \/ e = Error missing_version
                               \/ e = Error invalid_text) (normalize spec)).
  { intros spec. pose proof (normalize_exceptions spec) as H.
    destruct (normalize spec); simpl in *; tauto. }
  unfold parseOpenApiSpec, loadDocument.
  destruct input as [| | | |text| |]; cbn [bind]; try apply Hn.
  destruct (JSON_parse text); cbn [bind]; [apply Hn|].
  destruct (yaml_load text); cbn [bind]; [apply Hn|]. right. now right.
Qed.

(** X16. A text is read as JSON first and as YAML only when [JSON.parse]
    rejects it, and the parse error is raised exactly when both parsers
    reject the text: no document, however malformed, ends in it. *)
Theorem parse_error_iff (JSON_parse yaml_load : string -> option JValue) (text : string) :
  (forall spec, JSON_parse text = Some spec ->
     parseOpenApiSpec JSON_parse yaml_load (JStr text) = normalize spec) /\
  (forall spec, JSON_parse text = None -> yaml_load text = Some spec ->
     parseOpenApiSpec JSON_parse yaml_load (JStr text) = normalize spec) /\
  (parseOpenApiSpec JSON_parse yaml_load (JStr text) = Throw (Error invalid_text)
   <-> JSON_parse text = None /\ yaml_load text = None).
Proof.
  unfold parseOpenApiSpec, loadDocument.
  assert (Hn : forall spec, normalize spec <> Throw (Error invalid_text)).
  { intros spec E. pose proof (normalize_exceptions spec) as H. rewrite E in H.
    simpl in H. destruct H as [H|H]; discriminate. }
  split; [|split].
  - intros spec ->. reflexivity.
  - intros spec -> ->. reflexivity.
  - destruct (JSON_parse text) as [v|]; simpl.
    + split; [intros E; now destruct (Hn v)|intros [E _]; discriminate].
    + destruct (yaml_load text) as [v|]; simpl.
      * split; [intros E; now destruct (Hn v)|intros [_ E]; discriminate].
      * split; auto.
Qed.

(** ** The store *)

Lemma toggled_In (tag : string) (tags : list string) (t : string) :
  In t (toggled tag tags) <->
  (t = tag /\ ~ In tag tags) \/ (t <> tag /\ In t tags).
Proof.
  unfold toggled. destruct (existsb (String.eqb tag) tags) eqn:E.
  - apply existsb_exists in E as (x & Hx & E). apply String.eqb_eq in E. subst x.
    rewrite filter_In. split.
    + intros [Hin Hne]. right. split; [|exact Hin].
      intros ->. rewrite String.eqb_refl in Hne. discriminate.
    + intros [[_ Hnot]|[Hne Hin]]; [contradiction|].
      split; [exact Hin|]. apply String.eqb_neq in Hne. now rewrite Hne.
  - assert (Hnot : ~ In tag tags).
    { intros Hin. assert (existsb (String.eqb tag) tags = true); [|congruence].
      apply existsb_exists. exists tag. split; [exact Hin|apply String.eqb_refl]. }
    rewrite in_app_iff. simpl. split.
    + intros [Hin|[<-|[]]]; [right|left; auto]. split; [|exact Hin].
      intros ->. contradiction.
    + intros [[-> _]|[_ Hin]]; auto.
Qed.

(** X17. Toggling a tag flips whether it is expanded and leaves every
    other tag as it was; a list without repetitions stays without. *)
Theorem toggleTag_flips (tag : string) (s : ApiState.t) :
  (In tag (ApiState.expandedTags (toggleTag tag s)) <-> ~ In tag (ApiState.expandedTags s)) /\
  (forall t, t <> tag ->
     (In t (ApiState.expandedTags (toggleTag tag s)) <-> In t (ApiState.expandedTags s))) /\
  (NoDup (ApiState.expandedTags s) -> NoDup (ApiState.expandedTags (toggleTag tag s))).
Proof.
  simpl. split; [|split].
  - rewrite toggled_In. split; [intros [[_ H]|[H _]]; [exact H|contradiction]|auto].
  - intros t Hne. rewrite toggled_In. split; [intros [[H _]|[_ H]]; [contradiction|exact H]|auto].
  - intros Hnd. unfold toggled. destruct (existsb (String.eqb tag) (ApiState.expandedTags s)) eqn:E.
    + now apply NoDup_filter.
    + apply NoDup_app; [exact Hnd|repeat constructor; simpl; tauto|].
      intros a Hin [<-|[]].
      assert (existsb (String.eqb tag) (ApiState.expandedTags s) = true); [|congruence].
      apply existsb_exists. exists tag. split; [exact Hin|apply String.eqb_refl].
Qed.

Lemma filter_fresh (tag : string) (tags : list string) :
  ~ In tag tags -> filter (fun t => negb (String.eqb t tag)) tags = tags.
Proof.
  induction tags as [|t tags IH]; simpl; intros Hnot; [reflexivity|].
  destruct (String.eqb_spec t tag) as [->|Hne]; simpl; [tauto|].
  rewrite IH; [reflexivity|tauto].
Qed.

(** X18. Toggling a tag twice restores a list that did not hold it; in a
    list that held it, the tag ends up once, at the end. *)
Theorem toggleTag_twice (tag : string) (s : ApiState.t) :
  (~ In tag (ApiState.expandedTags s) -> toggleTag tag (toggleTag tag s) = s) /\
  (In tag (ApiState.expandedTags s) ->
   ApiState.expandedTags (toggleTag tag (toggleTag tag s))
   = filter (fun t => negb (String.eqb t tag)) (ApiState.expandedTags s) ++ [tag]).
Proof.
  split.
  - intros Hnot. destruct s as [? ? ? ? ? ? tags ? ? ? ?]. unfold toggleTag. simpl in *.
    f_equal. unfold toggled at 2.
    assert (E : existsb (String.eqb tag) tags = false).
    { destruct (existsb (String.eqb tag) tags) eqn:E; [|reflexivity].
      apply existsb_exists in E as (x & Hx & E). apply String.eqb_eq in E. now subst x. }
    rewrite E. unfold toggled.
    assert (E' : existsb (String.eqb tag) (tags ++ [tag]) = true).
    { rewrite existsb_app. simpl. rewrite String.eqb_refl. now rewrite orb_true_r. }
    rewrite E', filter_app, filter_fresh by assumption. simpl.
    rewrite String.eqb_refl. simpl. apply app_nil_r.
  - intros Hin. simpl. unfold toggled at 2.
    assert (E : existsb (String.eqb tag) (ApiState.expandedTags s) = true).
    { apply existsb_exists. exists tag. split; [exact Hin|apply String.eqb_refl]. }
    rewrite E. unfold toggled.
    assert (E' : existsb (String.eqb tag)
                   (filter (fun t => negb (String.eqb t tag)) (ApiState.expandedTags s)) = false).
    { destruct (existsb (String.eqb tag)
                  (filter (fun t => negb (String.eqb t tag)) (ApiState.expandedTags s)))
        eqn:E''; [|reflexivity].
      apply existsb_exists in E'' as (x & Hx & E''). apply String.eqb_eq in E''. subst x.
      apply filter_In in Hx as [_ Hx]. rewrite String.eqb_refl in Hx. discriminate. }
    now rewrite E'.
Qed.

Lemma toggleTag_twice_witness :
  toggleTag "pets" (toggleTag "pets" initialState) = initialState.
Proof.
  apply (proj1 (toggleTag_twice "pets" initialState)). simpl. tauto.
Defined.

(** X19. [reset] clears the loaded specification, the selection, the
    search, the expanded tags, the error and the last response, and keeps
    the active tab, the request flag and the theme: it leads back to the
    initial state exactly from the states whose tab is the documentation,
    whose request flag is down and whose theme is dark. *)
Theorem reset_clears (s : ApiState.t) :
  reset s = cleared (ApiState.activeTab s) (ApiState.isRequestLoading s) (ApiState.isDarkMode s) /\
  reset (reset s) = reset s /\
  (reset s = initialState <->
   ApiState.activeTab s = Docs /\ ApiState.isRequestLoading s = false /\
   ApiState.isDarkMode s = true).
Proof.
  split; [reflexivity|]. split; [reflexivity|].
  unfold reset, initialState. split.
  - intros H. injection H as -> -> ->. auto.
  - intros (-> & -> & ->). reflexivity.
Qed.

(** X20. A file upload ends in one of two ways. Either the text
    normalizes: the new model is installed and the error cleared, and the
    loading flag, raised at the start, stays up. Or it does not: the
    message of the exception becomes the error, the loading flag goes down
    and the model loaded before stays in place. Either way the selected
    endpoint is the one selected before. Without a file nothing changes. *)
Theorem upload_outcome (JSON_parse yaml_load : string -> option JValue)
    (type_error_message text : string) (s : ApiState.t) :
  handleFileUpload JSON_parse yaml_load type_error_message None s = s /\
  ApiState.selectedEndpoint
    (handleFileUpload JSON_parse yaml_load type_error_message (Some text) s)
  = ApiState.selectedEndpoint s /\
  ((exists parsed,
       parseOpenApiSpec JSON_parse yaml_load (JStr text) = Ret parsed /\
       ApiState.spec (handleFileUpload JSON_parse yaml_load type_error_message (Some text) s)
       = Some parsed /\
       ApiState.error (handleFileUpload JSON_parse yaml_load type_error_message (Some text) s)
       = None /\
       ApiState.isLoading (handleFileUpload JSON_parse yaml_load type_error_message (Some text) s)
       = true) \/
   (exists err,
       parseOpenApiSpec JSON_parse yaml_load (JStr text) = Throw err /\
       (err = TypeError \/ err = Error missing_version \/ err = Error invalid_text) /\
       ApiState.spec (handleFileUpload JSON_parse yaml_load type_error_message (Some text) s)
       = ApiState.spec s /\
       ApiState.error (handleFileUpload JSON_parse yaml_load type_error_message (Some text) s)
       = Some (message_of type_error_message err) /\
       ApiState.isLoading (handleFileUpload JSON_parse yaml_load type_error_message (Some text) s)
       = false)).
Proof.
  split; [reflexivity|].
  pose proof (parseOpenApiSpec_exceptions JSON_parse yaml_load (JStr text)) as Hs.
  unfold handleFileUpload.
  destruct (parseOpenApiSpec JSON_parse yaml_load (JStr text)) as [parsed|err|]; simpl in Hs.
  - split; [reflexivity|]. left. exists parsed. auto.
  - split; [reflexivity|]. right. exists err. auto.
  - contradiction.
Qed.

(** ** The sidebar's groups *)

Lemma addToGroup_members (groups : list (JValue * list Endpoint.t)) (tag : JValue)
    (e : Endpoint.t) :
  Permutation (List.concat (map snd (addToGroup groups tag e)))
              (e :: List.concat (map snd groups)).
Proof.
  induction groups as [|[t es] rest IH]; simpl; [reflexivity|].
  destruct (same_value_zero t tag); simpl.
  - rewrite <- app_assoc. simpl. symmetry. apply Permutation_middle.
  - rewrite IH. symmetry. apply Permutation_middle.
Qed.

Lemma addToGroup_grouped (groups : list (JValue * list Endpoint.t)) (tag : JValue)
    (e : Endpoint.t) :
  groupKey e = Ret tag -> Forall grouped groups -> Forall grouped (addToGroup groups tag e).
Proof.
  intros Hkey. induction 1 as [|[t es] rest [Hne Hes] Hrest IH]; simpl.
  - repeat constructor; simpl; [discriminate|]. exists tag. auto.
  - destruct (same_value_zero t tag) eqn:E.
    + constructor; [|assumption]. split; simpl.
      * destruct es; discriminate.
      * apply Forall_app. split; [exact Hes|]. repeat constructor. exists tag. auto.
    + constructor; [split; assumption|exact IH].
Qed.

(** The keys of the groups are pairwise different for [Map]. *)
Lemma addToGroup_keys (groups : list (JValue * list Endpoint.t)) (tag : JValue)
    (e : Endpoint.t) :
  map fst (addToGroup groups tag e)
  = if existsb (fun t => same_value_zero t tag) (map fst groups)
    then map fst groups else map fst groups ++ [tag].
Proof.
  induction groups as [|[t es] rest IH]; simpl; [reflexivity|].
  destruct (same_value_zero t tag); simpl; [reflexivity|].
  rewrite IH. now destruct (existsb _ (map fst rest)).
Qed.

Lemma distinct_keys_app (keys : list JValue) (tag : JValue) :
  ForallOrdPairs (fun a b => same_value_zero a b = false) keys ->
  existsb (fun t => same_value_zero t tag) keys = false ->
  ForallOrdPairs (fun a b => same_value_zero a b = false) (keys ++ [tag]).
Proof.
  induction 1 as [|k keys Hk _ IH]; simpl; intros E.
  - repeat constructor.
  - apply orb_false_iff in E as [E1 E2]. constructor; [|auto].
    apply Forall_app. split; [exact Hk|]. repeat constructor. exact E1.
Qed.

Lemma groupInto_Ret (endpoints : list Endpoint.t) :
  forall groups result,
    groupInto groups endpoints = Ret result ->
    Permutation (List.concat (map snd result)) (List.concat (map snd groups) ++ endpoints) /\
    (Forall grouped groups -> Forall grouped result) /\
    (ForallOrdPairs (fun a b => same_value_zero a b = false) (map fst groups) ->
     ForallOrdPairs (fun a b => same_value_zero a b = false) (map fst result)).
Proof.
  induction endpoints as [|e rest IH]; simpl; intros groups result H.
  - injection H as <-. rewrite app_nil_r. auto.
  - apply bind_Ret in H as (tag & Hkey & H). apply IH in H as (Hperm & Hgrouped & Hkeys).
    split; [|split].
    + rewrite Hperm, addToGroup_members. simpl. apply Permutation_middle.
    + intros Hg. apply Hgrouped. now apply addToGroup_grouped.
    + intros Hk. apply Hkeys. rewrite addToGroup_keys.
      destruct (existsb (fun t => same_value_zero t tag) (map fst groups)) eqn:E;
        [exact Hk|now apply distinct_keys_app].
Qed.

(** X21. Grouping loses and repeats nothing: the groups, taken together,
    hold the endpoints of the model, each once. No group is empty, every
    member of a group has the group's tag as its first tag (or [default]
    when it has none), and no two groups have the same tag. *)
Theorem groups_partition (endpoints : list Endpoint.t)
    (groups : list (JValue * list Endpoint.t)) :
  endpointsByTag endpoints = Ret groups ->
  Permutation (List.concat (map snd groups)) endpoints /\
  Forall grouped groups /\
  ForallOrdPairs (fun a b => same_value_zero a b = false) (map fst groups).
Proof.
  unfold endpointsByTag. intros H. apply groupInto_Ret in H as (Hperm & Hgrouped & Hkeys).
  split; [exact Hperm|]. split; [apply Hgrouped; constructor|apply Hkeys; constructor].
Qed.

Lemma groups_partition_witness :
  exists groups,
    endpointsByTag tagged_endpoints = Ret groups /\
    map fst groups = [JStr "pets"; JStr "store"; JStr "default"; JStr "users"] /\
    Permutation (List.concat (map snd groups)) tagged_endpoints.
Proof.
  eexists. split; [reflexivity|]. split; [reflexivity|].
  exact (proj1 (groups_partition tagged_endpoints _ eq_refl)).
Defined.

Lemma groupInto_returns (endpoints : list Endpoint.t) :
  Forall (fun e => is_nullish (Endpoint.tags e) = false) endpoints ->
  forall groups, exists result, groupInto groups endpoints = Ret result.
Proof.
  induction 1 as [|e rest He _ IH]; simpl; intros groups; [eauto|].
  unfold groupKey. rewrite He. simpl. apply IH.
Qed.

Lemma normalized_tags_truthy (spec : JValue) (api : ApiSpec.t) (e : Endpoint.t) :
  normalize spec = Ret api -> In e (ApiSpec.endpoints api) ->
  truthy (Endpoint.tags e) = true.
Proof.
  intros H Hin. destruct (endpoint_source _ _ _ H Hin) as (pathItem & _ & Hop).
  apply parseOperation_Ret in Hop as (_ & _ & _ & ->). unfold or_else.
  destruct (truthy (prop _ "tags")) eqn:E; [exact E|reflexivity].
Qed.

(** X22. The endpoints of a normalized document can always be grouped:
    each has tags to read a first tag from. An endpoint whose tag list is
    empty, as the parser leaves the list of an operation that declares an
    empty one, goes to the group [default], where the untagged go. *)
Theorem normalized_endpoints_group (spec : JValue) (api : ApiSpec.t) :
  normalize spec = Ret api ->
  (exists groups, endpointsByTag (ApiSpec.endpoints api) = Ret groups) /\
  (forall e, In e (ApiSpec.endpoints api) ->
     exists key, groupKey e = Ret key /\ truthy key = true /\
                 (Endpoint.tags e = JArr [] -> key = JStr "default") /\
                 (Endpoint.tags e = JArr [JStr "default"] -> key = JStr "default")).
Proof.
  intros H. split.
  - apply groupInto_returns. apply Forall_forall. intros e Hin.
    apply truthy_not_nullish. exact (normalized_tags_truthy _ _ _ H Hin).
  - intros e Hin. pose proof (normalized_tags_truthy _ _ _ H Hin) as Ht.
    unfold groupKey. rewrite (truthy_not_nullish _ Ht).
    eexists. split; [reflexivity|]. split; [|split].
    + unfold or_else. destruct (truthy (item0 (Endpoint.tags e))) eqn:E; [exact E|reflexivity].
    + intros ->. reflexivity.
    + intros ->. reflexivity.
Qed.

Lemma normalized_endpoints_group_witness :
  exists api groups,
    normalize empty_tags = Ret api /\
    endpointsByTag (ApiSpec.endpoints api) = Ret groups /\
    map fst groups = [JStr "pets"; JStr "default"].
Proof.
  destruct (normalized_endpoints_group empty_tags _ eq_refl) as [(groups & Hgroups) _].
  do 2 eexists. split; [reflexivity|]. split; reflexivity.
Defined.

(** ** Status colours and reference names *)

(** X23. The colour of a status: success from 200 to 299, redirect from
    300 to 399, client error from 400 to 499, and the server colour for
    everything else, the statuses below 200 included, among them the 0 of
    a request that did not get through. *)
Theorem status_colours (status : Z) :
  (getStatusColor status = "text-status-success" <-> (200 <= status < 300)%Z) /\
  (getStatusColor status = "text-status-redirect" <-> (300 <= status < 400)%Z) /\
  (getStatusColor status = "text-status-client" <-> (400 <= status < 500)%Z) /\
  (getStatusColor status = "text-status-server" <-> (status < 200 \/ 500 <= status)%Z).
Proof.
  unfold getStatusColor.
  destruct (Z.leb_spec 200 status), (Z.ltb_spec status 300),
           (Z.leb_spec 300 status), (Z.ltb_spec status 400),
           (Z.leb_spec 400 status), (Z.ltb_spec status 500); simpl;
    repeat split; intros; try discriminate; try lia; try reflexivity.
Qed.

Lemma split_slash_nonempty (s : string) : split_slash s <> [].
Proof.
  destruct s as [|c s]; simpl; [discriminate|].
  destruct (Ascii.eqb c "/"); [discriminate|].
  destruct (split_slash s); discriminate.
Qed.

(** Splitting at a slash splits the list of segments. *)
Lemma split_slash_app (p n : string) :
  split_slash (p ++ String "/" n) = split_slash p ++ split_slash n.
Proof.
  induction p as [|c p IH]; simpl; [reflexivity|].
  rewrite IH. destruct (Ascii.eqb c "/"); [reflexivity|].
  pose proof (split_slash_nonempty p) as Hp.
  destruct (split_slash p) as [|segment segments]; [contradiction|reflexivity].
Qed.

Lemma split_slash_none (s : string) : has_slash s = false -> split_slash s = [s].
Proof.
  induction s as [|c s IH]; simpl; [reflexivity|].
  intros H. apply orb_false_iff in H as [-> H]. now rewrite IH.
Qed.

Lemma split_slash_segments (s : string) :
  Forall (fun segment => has_slash segment = false) (split_slash s).
Proof.
  induction s as [|c s IH]; simpl; [repeat constructor|].
  destruct (Ascii.eqb c "/") eqn:E; [constructor; auto|].
  destruct (split_slash s) as [|segment segments]; [repeat constructor; simpl; now rewrite E|].
  inversion IH as [|? ? Hseg Hrest]; subst. constructor; [|exact Hrest].
  simpl. now rewrite E, Hseg.
Qed.

Lemma last_app_nonempty {A : Type} (l l' : list A) (d : A) :
  l' <> [] -> last (l ++ l') d = last l' d.
Proof.
  intros Hne. induction l as [|x l IH]; simpl; [reflexivity|].
  destruct (l ++ l') eqn:E; [|exact IH].
  apply app_eq_nil in E as [_ E]. contradiction.
Qed.

Lemma last_Forall {A : Type} (P : A -> Prop) (l : list A) (d : A) :
  P d -> Forall P l -> P (last l d).
Proof.
  intros Hd. induction 1 as [|x l Hx Hl IH]; simpl; [exact Hd|].
  destruct l; [exact Hx|exact IH].
Qed.

(** X24. The name shown for a reference is what follows its last slash:
    it holds no slash, it is the reference itself when that holds none,
    and a reference made of any prefix, a slash and a name without a slash
    is shown as that name. *)
Theorem refName_last_segment (ref : string) :
  has_slash (refName ref) = false /\
  (has_slash ref = false -> refName ref = ref) /\
  (forall prefix name, ref = (prefix ++ String "/" name)%string ->
     has_slash name = false -> refName ref = name).
Proof.
  unfold refName. split; [|split].
  - apply (last_Forall (fun segment => has_slash segment = false)); [reflexivity|].
    apply split_slash_segments.
  - intros H. now rewrite split_slash_none.
  - intros prefix name -> Hname.
    rewrite split_slash_app, last_app_nonempty by apply split_slash_nonempty.
    now rewrite split_slash_none.
Qed.

Lemma refName_last_segment_witness :
  refName "#/components/schemas/Pet" = "Pet".
Proof.
  exact (proj2 (proj2 (refName_last_segment "#/components/schemas/Pet"))
               "#/components/schemas" "Pet" eq_refl eq_refl).
Defined.
